(** * Query coordinator task codec and index-node gRPC client

    A shallow embedding of
    - [internal/distributed/indexnode/client/client.go]: [NewClient], [Init],
      [reconnect] and [recall] of the index-node client, as programs of a
      state monad over the client object, the network and a log of the
      effects performed, and its RPC methods [GetComponentStates],
      [GetTimeTickChannel], [GetStatisticsChannel] and [CreateIndex];
    - the task codec of the query coordinator ([marshal], [unmarshalTask]),
      which [internal/querycoord/task_scheduler_test.go] exercises.

    The definitions come first, the lemmas and theorems after them. *)

From Stdlib Require Import ZArith NArith String List Bool Lia.
From Stdlib Require Import Strings.Byte.
From ExtLib Require Import Structures.Monad Structures.MonadState.
From ExtLib Require Import Data.Monads.StateMonad Data.Monads.OptionMonad.
From Equations Require Import Equations.
From Equations.Prop Require Import Logic.
Import ListNotations.
Import MonadNotation.
Local Open Scope monad_scope.
Local Open Scope Z_scope.

(** ** Go base types *)

(** [time.Duration] is an int64 count of nanoseconds. *)
Definition Duration := Z.
Definition Millisecond : Duration := 1000000.

(** A Go [error] value that is not nil; a nil error is [None] of
    [option error]. *)
Definition error := string.

(** ** Effects of the client, as a log

    Every call that leaves the client is recorded, oldest first: an
    invocation of the caller closure with what it returned, a dial attempt
    with its error, a [time.Sleep], and the return of [reconnect] with its
    error. *)
Inductive Event (Ret : Type) : Type :=
| EvCall (ret : Ret) (err : option error)
| EvDial (err : option error)
| EvSleep (d : Duration)
| EvReconnect (err : option error).
Arguments EvCall {Ret} ret err.
Arguments EvDial {Ret} err.
Arguments EvSleep {Ret} d.
Arguments EvReconnect {Ret} err.

Definition isCall {Ret} (ev : Event Ret) : bool :=
  match ev with EvCall _ _ => true | _ => false end.
Definition isCallOk {Ret} (ev : Event Ret) : bool :=
  match ev with EvCall _ None => true | _ => false end.
Definition isDial {Ret} (ev : Event Ret) : bool :=
  match ev with EvDial _ => true | _ => false end.
Definition isSleep {Ret} (ev : Event Ret) : bool :=
  match ev with EvSleep _ => true | _ => false end.
Definition isSleepOf {Ret} (d : Duration) (ev : Event Ret) : bool :=
  match ev with EvSleep d' => d' =? d | _ => false end.
Definition isReconnect {Ret} (ev : Event Ret) : bool :=
  match ev with EvReconnect _ => true | _ => false end.
Definition isReconnectOk {Ret} (ev : Event Ret) : bool :=
  match ev with EvReconnect None => true | _ => false end.
Definition isReconnectErr {Ret} (ev : Event Ret) : bool :=
  match ev with EvReconnect (Some _) => true | _ => false end.

(** Number of events of a log that satisfy [p]. *)
Definition count {Ret} (p : Event Ret -> bool) (tr : list (Event Ret)) : nat :=
  length (filter p tr).

(** The error carried by an event, if it reports one. *)
Definition errorOf {Ret} (ev : Event Ret) : option error :=
  match ev with
  | EvCall _ e => e
  | EvDial e => e
  | EvReconnect e => e
  | EvSleep _ => None
  end.

(** The last error met in a log: the error of its most recent event. *)
Definition lastError {Ret} (tr : list (Event Ret)) : option error :=
  match rev tr with
  | [] => None
  | ev :: _ => errorOf ev
  end.

(** [scan sep pending tr] walks a log and checks that between two
    consecutive invocations of the caller some event satisfying [sep] occurs.
    [pending] says that a caller invocation has been seen with no separator
    after it; the result is the final value of [pending], or [None] when two
    invocations follow each other with no separator between them. *)
Fixpoint scan {Ret} (sep : Event Ret -> bool) (pending : bool)
         (tr : list (Event Ret)) : option bool :=
  match tr with
  | [] => Some pending
  | ev :: tr' =>
      if isCall ev then
        if pending then None else scan sep true tr'
      else if sep ev then scan sep false tr'
      else scan sep pending tr'
  end.

Definition separated {Ret} (sep : Event Ret -> bool) (tr : list (Event Ret)) : bool :=
  match scan sep false tr with Some _ => true | None => false end.

(** The log of a bounded retry at a fixed interval [d]: every failed
    attempt that is followed by another one is followed by one sleep of [d],
    and the log ends with the attempt that decided the result. *)
Definition retryTrace {Ret} (d : Duration) (errs : list error)
           (final : option error) : list (Event Ret) :=
  flat_map (fun e => [EvDial (Some e); EvSleep d]) errs ++ [EvDial final].

Module grpcindexnodeclient.

(** [indexpb.NewIndexNodeClient(cc)]: the stub wraps the connection it is
    given. *)
Record IndexNodeClient (Conn : Type) : Type :=
  NewIndexNodeClient { cc : option Conn }.
Arguments NewIndexNodeClient {Conn} cc.
Arguments cc {Conn} _.

(** [type Client struct]. [ctx] is always [context.Background()] and is
    left out. *)
Record Client (Conn : Type) : Type := mkClient {
  grpcClient : option (IndexNodeClient Conn);
  conn : option Conn;
  address : string;
  timeout : Duration;
  reconnTry : Z;
  recallTry : Z
}.
Arguments mkClient {Conn}.
Arguments grpcClient {Conn} _.
Arguments conn {Conn} _.
Arguments address {Conn} _.
Arguments timeout {Conn} _.
Arguments reconnTry {Conn} _.
Arguments recallTry {Conn} _.

(** [func NewClient(address string, timeout time.Duration)], returning a
    client pointer (nil is [None]) and an error. *)
Definition NewClient {Conn} (address : string) (timeout : Duration)
  : option (Client Conn) * option error :=
  if String.eqb address EmptyString then (None, Some "address is empty"%string)
  else (Some {| grpcClient := None; conn := None; address := address;
                timeout := timeout; recallTry := 3; reconnTry := 10 |},
        None).

(** The state the methods of a client run in: the client object behind the
    receiver pointer, the network, and the log. *)
Record St (World Conn Ret : Type) : Type := mkSt {
  client : Client Conn;
  world : World;
  events : list (Event Ret)
}.
Arguments mkSt {World Conn Ret}.
Arguments client {World Conn Ret} _.
Arguments world {World Conn Ret} _.
Arguments events {World Conn Ret} _.

Section Methods.
Context {World Conn Ret : Type}.

(** [grpc.DialContext(ctx, address, ...)] under a context that expires
    after [timeout]: a connection or an error, and the network after the
    attempt. *)
Variable DialContext : string -> Duration -> World -> (Conn + error) * World.

Local Abbreviation St := (St World Conn Ret).
Local Abbreviation M := (state St).

Definition addEvent (ev : Event Ret) (s : St) : St :=
  {| client := client s; world := world s; events := events s ++ [ev] |}.

Definition logEvent (ev : Event Ret) : M unit :=
  modify (addEvent ev) ;; ret tt.

(** [time.Sleep(d)] *)
Definition Sleep (d : Duration) : M unit := logEvent (EvSleep d).

(** The closure [connectGrpcFunc] of [Init] and [reconnect]: dial, and on
    success store the connection in [c.conn]. *)
Definition connectGrpcFunc : M (option error) :=
  s <- get ;;
  let c := client s in
  match DialContext (address c) (timeout c) (world s) with
  | (inr err, w) =>
      put {| client := c; world := w; events := events s |} ;;
      logEvent (EvDial (Some err)) ;;
      ret (Some err)
  | (inl cn, w) =>
      put {| client := {| grpcClient := grpcClient c; conn := Some cn;
                          address := address c; timeout := timeout c;
                          reconnTry := reconnTry c; recallTry := recallTry c |};
             world := w; events := events s |} ;;
      logEvent (EvDial None) ;;
      ret None
  end.

(** Modelled from the spec: [retry.Retry] of [internal/util/retry], which
    is not among the sources. A bounded retry with a fixed interval: [fn]
    is tried, and tried again after a sleep of [sleep] while it fails and
    attempts remain; the result is nil at the first success, and the last
    error once the bound is reached. [fn] is tried at least once, so that
    there is an error to return. [more] is the number of attempts left
    after the current one. *)
Fixpoint retryLoop (more : nat) (sleep : Duration) (fn : M (option error))
  : M (option error) :=
  r <- fn ;;
  match r with
  | None => ret None
  | Some err =>
      match more with
      | O => ret (Some err)
      | S more' => Sleep sleep ;; retryLoop more' sleep fn
      end
  end.

Definition Retry (attempts : Z) (sleep : Duration) (fn : M (option error))
  : M (option error) :=
  retryLoop (Z.to_nat (attempts - 1)) sleep fn.

(** [c.grpcClient = indexpb.NewIndexNodeClient(c.conn)] *)
Definition setGrpcClient : M unit :=
  modify (fun s =>
    let c := client s in
    {| client := {| grpcClient := Some (NewIndexNodeClient (conn c));
                    conn := conn c; address := address c;
                    timeout := timeout c; reconnTry := reconnTry c;
                    recallTry := recallTry c |};
       world := world s; events := events s |}) ;;
  ret tt.

(** [func (c *Client) Init() error] *)
Definition Init : M (option error) :=
  err <- Retry 100000 (Millisecond * 200) connectGrpcFunc ;;
  match err with
  | Some e => ret (Some e)
  | None => setGrpcClient ;; ret None
  end.

(** [func (c *Client) reconnect() error]; its return is logged. *)
Definition reconnect : M (option error) :=
  s <- get ;;
  err <- Retry (reconnTry (client s)) (500 * Millisecond) connectGrpcFunc ;;
  match err with
  | Some e => logEvent (EvReconnect (Some e)) ;; ret (Some e)
  | None => setGrpcClient ;; logEvent (EvReconnect None) ;; ret None
  end.

(** A caller closure, as the methods of the client build it: it reads the
    client (its [grpcClient]) and performs one RPC on the network. *)
Definition Caller := Client Conn -> World -> (Ret * option error) * World.

(** [caller()], logged. *)
Definition invoke (caller : Caller) : M (Ret * option error) :=
  s <- get ;;
  let '(r, w) := caller (client s) (world s) in
  put {| client := client s; world := w; events := events s |} ;;
  logEvent (EvCall (fst r) (snd r)) ;;
  ret r.

(** The [for i := 0; i < c.recallTry; i++] loop of [recall], with [n]
    iterations left and the current values of [ret] and [err]. Neither
    [reconnect] nor the caller writes [c.recallTry], so the bound is read
    once. *)
Fixpoint recallLoop (n : nat) (caller : Caller) (ret0 : Ret)
         (err0 : option error) : M (Ret * option error) :=
  match n with
  | O => ret (ret0, err0)
  | S n' =>
      err <- reconnect ;;
      match err with
      | None =>
          r <- invoke caller ;;
          match snd r with
          | None => ret (fst r, None)
          | Some e => recallLoop n' caller (fst r) (Some e)
          end
      | Some e => recallLoop n' caller ret0 (Some e)
      end
  end.

(** [func (c *Client) recall(caller func() (interface{}, error))
    (interface{}, error)] *)
Definition recall (caller : Caller) : M (Ret * option error) :=
  r <- invoke caller ;;
  match snd r with
  | None => ret (fst r, None)
  | Some e =>
      s <- get ;;
      recallLoop (Z.to_nat (recallTry (client s))) caller (fst r) (Some e)
  end.

End Methods.

(** ** Shapes of the logs

    What one run of [reconnect], of the loop of [recall] and of [recall]
    adds to the log, with the result returned. [k] is the number of dial
    attempts a reconnect may make after its first one, [n] the number of
    iterations the loop has left. *)
Section Shapes.
Context {Ret : Type}.

(** One reconnect: its dial attempts, then its return. *)
Definition reconnectTrace (k : nat) (tr : list (Event Ret))
           (r : option error) : Prop :=
  exists errs,
    tr = retryTrace (500 * Millisecond) errs r ++ [EvReconnect r] /\
    (List.length errs <= k)%nat /\
    (r <> None -> List.length errs = k).

(** The loop from [ret0] and [err0]: it stops when no iteration is left;
    an iteration whose reconnect fails keeps [ret0] and takes the error of
    the reconnect; an iteration whose reconnect succeeds invokes the caller,
    and either goes on with what the caller returned or returns its
    success. *)
Inductive loopTrace (k : nat)
  : nat -> Ret -> option error -> list (Event Ret) -> Ret * option error -> Prop :=
| loop_exhausted ret0 err0 :
    loopTrace k 0 ret0 err0 [] (ret0, err0)
| loop_reconnect_failed n ret0 err0 rt e tr res :
    reconnectTrace k rt (Some e) ->
    loopTrace k n ret0 (Some e) tr res ->
    loopTrace k (S n) ret0 err0 (rt ++ tr) res
| loop_call_failed n ret0 err0 rt v e tr res :
    reconnectTrace k rt None ->
    loopTrace k n v (Some e) tr res ->
    loopTrace k (S n) ret0 err0 (rt ++ EvCall v (Some e) :: tr) res
| loop_call_ok n ret0 err0 rt v :
    reconnectTrace k rt None ->
    loopTrace k (S n) ret0 err0 (rt ++ [EvCall v None]) (v, None).

(** Every sleep of a log lasts [d]. *)
Definition sleepsAre (d : Duration) (tr : list (Event Ret)) : Prop :=
  Forall (fun ev => isSleep ev = true -> ev = EvSleep d) tr.

(** [recall]: the first invocation, then the loop if it failed. *)
Inductive recallTrace (k n : nat)
  : list (Event Ret) -> Ret * option error -> Prop :=
| recall_first_ok v :
    recallTrace k n [EvCall v None] (v, None)
| recall_retried v e tr res :
    loopTrace k n v (Some e) tr res ->
    recallTrace k n (EvCall v (Some e) :: tr) res.

End Shapes.

(** The fields of a client that no method writes after [NewClient]. *)
Definition sameConfig {Conn} (c c' : Client Conn) : Prop :=
  address c' = address c /\ timeout c' = timeout c /\
  reconnTry c' = reconnTry c /\ recallTry c' = recallTry c.

End grpcindexnodeclient.

(** ** Concrete networks and callers

    Small environments on which the methods run to a value: a network that
    counts the dial attempts made on it and accepts them from a given attempt
    on, and callers that answer with a string. *)
Module ClientExamples.
Import grpcindexnodeclient.

(** The dial that fails while fewer than [k] attempts have been made. *)
Definition dialAfter (k : nat) (_ : string) (_ : Duration) (w : nat)
  : (unit + error) * nat :=
  if (w <? k)%nat then (inr "connection refused"%string, S w)
  else (inl tt, S w).

(** A network on which every dial succeeds, and one on which none does. *)
Definition dialUp := dialAfter 0.
Definition dialDown (_ : string) (_ : Duration) (w : nat)
  : (unit + error) * nat :=
  (inr "connection refused"%string, S w).

(** An RPC that always fails, one that always answers, and one that answers
    once the client has a stub. *)
Definition rpcDown : @Caller nat unit string :=
  fun _ w => ((EmptyString, Some "rpc failed"%string), w).
Definition rpcUp : @Caller nat unit string :=
  fun _ w => (("Healthy"%string, None), w).
Definition rpcNeedsStub : @Caller nat unit string :=
  fun c w =>
    match grpcClient c with
    | Some _ => (("Healthy"%string, None), w)
    | None => ((EmptyString, Some "no connection"%string), w)
    end.

(** The client [NewClient] builds for an index node, before [Init]. *)
Definition client0 : Client unit :=
  {| grpcClient := None; conn := None; address := "localhost:21121";
     timeout := 3000 * Millisecond; reconnTry := 10; recallTry := 3 |}.

Definition st0 : St nat unit string :=
  {| client := client0; world := 0%nat; events := [] |}.

End ClientExamples.

(** ** The task codec of the query coordinator

    [task_scheduler_test.go] builds one task of each variant, marshals it,
    and feeds the bytes to [unmarshalTask] with a fresh id. The codec itself
    ([marshal] of each task type and [TaskScheduler.unmarshalTask]) is in
    files that are not among the sources; it is modelled here from the
    specification of the scheduler. *)
Module querycoord.

(** The [commonpb.MsgType] constants of the nine task variants, as the test
    names them. *)
Inductive MsgType : Type :=
| MsgType_LoadCollection
| MsgType_LoadPartitions
| MsgType_ReleaseCollection
| MsgType_ReleasePartitions
| MsgType_LoadSegments
| MsgType_ReleaseSegments
| MsgType_WatchDmChannels
| MsgType_WatchQueryChannels
| MsgType_LoadBalanceSegments.

Definition allMsgTypes : list MsgType :=
  [MsgType_LoadCollection; MsgType_LoadPartitions; MsgType_ReleaseCollection;
   MsgType_ReleasePartitions; MsgType_LoadSegments; MsgType_ReleaseSegments;
   MsgType_WatchDmChannels; MsgType_WatchQueryChannels;
   MsgType_LoadBalanceSegments].

(** Modelled from the spec: the lifecycle states of a task (section 4.3);
    of the type [taskState] the sources show only the constant [taskDone]. *)
Inductive taskState : Type :=
| taskUndefined | taskUnissued | taskDoing | taskDone | taskFailed.

(** Modelled from the spec: the request payload of a task. The [querypb]
    request types are not among the sources; the test fills in
    [Base.Timestamp] and [NodeID], and the data model names the target node
    id, the collection id, the segment ids and the channel names. One record
    serves the nine variants, the variant being told by the tag. *)
Record Request : Type := mkRequest {
  Timestamp : Z;
  NodeID : Z;
  CollectionID : Z;
  SegmentIDs : list Z;
  ChannelNames : list (list byte)
}.

(** Modelled from the spec: what the codec determines of a task, its id, its
    message type, its state and its request. The condition variable of a
    task carries no data and is left out. *)
Record Task : Type := mkTask {
  taskID : Z;
  msgType : MsgType;
  state : taskState;
  request : Request
}.

(** Modelled from the spec: the two errors of [unmarshalTask]
    (sections 4.1 and 6). *)
Inductive UnmarshalError : Type := ErrUnknownTaskType | ErrCorruptTask.

(** *** The wire format

    Modelled from the spec: a blob is self-describing, the type tag followed
    by the request payload. The sources do not fix the byte layout; the model
    writes every number as a base-128 varint, least significant group first,
    the high bit of a byte telling that more bytes follow. *)

(** The byte of value [n], for [n] below 256. *)
Definition byteOfN (n : N) : byte :=
  match Byte.of_N n with Some b => b | None => x00 end.

Equations? put_varint (n : N) : list byte by wf (N.to_nat (N.log2 n)) lt :=
  put_varint n with inspect (n <? 128)%N := {
    | exist _ true _ := [byteOfN n];
    | exist _ false H := byteOfN (n mod 128 + 128) :: put_varint (n / 128) }.
Proof.
  apply N.ltb_ge in H.
  assert (N.log2 (n / 128) < N.log2 n)%N; [|lia].
  apply N.log2_lt_pow2; [apply N.div_str_pos; lia|].
  apply N.Div0.div_lt_upper_bound.
  destruct (N.log2_spec n) as [_ Hs]; [lia|].
  rewrite N.pow_succ_r' in Hs; lia.
Qed.

(** Reading a varint fails when the bytes end before a byte without the
    high bit. *)
Fixpoint get_varint (bs : list byte) : option (N * list byte) :=
  match bs with
  | [] => None
  | b :: rest =>
      let v := Byte.to_N b in
      if (v <? 128)%N then Some (v, rest)
      else '(hi, rest') <- get_varint rest ;; ret ((v - 128 + 128 * hi)%N, rest')
  end.

(** A field codec: a printer, and a parser that returns the value read and
    the bytes left. *)
Definition Parser (A : Type) : Type := list byte -> option (A * list byte).

(** int64 and uint64 fields travel as the varint of their 64-bit pattern; a
    number that does not fit in 64 bits is malformed. *)
Definition put_uint64 (z : Z) : list byte := put_varint (Z.to_N (z mod 2 ^ 64)).

Definition get_uint64 : Parser Z := fun bs =>
  '(n, rest) <- get_varint bs ;;
  if (n <? 2 ^ 64)%N then ret (Z.of_N n, rest) else None.

Definition put_int64 (z : Z) : list byte := put_varint (Z.to_N (z mod 2 ^ 64)).

Definition get_int64 : Parser Z := fun bs =>
  '(n, rest) <- get_varint bs ;;
  if (n <? 2 ^ 63)%N then ret (Z.of_N n, rest)
  else if (n <? 2 ^ 64)%N then ret (Z.of_N n - 2 ^ 64, rest)
  else None.

(** A string travels as its length and its bytes. *)
Definition put_bytes (s : list byte) : list byte :=
  put_varint (N.of_nat (List.length s)) ++ s.

Definition get_bytes : Parser (list byte) := fun bs =>
  '(n, rest) <- get_varint bs ;;
  if (n <=? N.of_nat (List.length rest))%N
  then ret (firstn (N.to_nat n) rest, skipn (N.to_nat n) rest)
  else None.

(** A repeated field travels as its count and its elements in order. *)
Fixpoint get_many {A} (get : Parser A) (n : nat) : Parser (list A) := fun bs =>
  match n with
  | O => ret ([], bs)
  | S n' =>
      '(x, rest) <- get bs ;;
      '(xs, rest') <- get_many get n' rest ;;
      ret (x :: xs, rest')
  end.

Definition put_list {A} (put : A -> list byte) (xs : list A) : list byte :=
  put_varint (N.of_nat (List.length xs)) ++ concat (map put xs).

Definition get_list {A} (get : Parser A) : Parser (list A) := fun bs =>
  '(n, rest) <- get_varint bs ;;
  get_many get (N.to_nat n) rest.

(** The payload: the fields of the request in the order of the record. *)
Definition put_request (r : Request) : list byte :=
  put_uint64 (Timestamp r) ++ put_int64 (NodeID r) ++
  put_int64 (CollectionID r) ++ put_list put_int64 (SegmentIDs r) ++
  put_list put_bytes (ChannelNames r).

Definition get_request : Parser Request := fun bs =>
  '(ts, bs1) <- get_uint64 bs ;;
  '(node, bs2) <- get_int64 bs1 ;;
  '(coll, bs3) <- get_int64 bs2 ;;
  '(segs, bs4) <- get_list get_int64 bs3 ;;
  '(chans, bs5) <- get_list get_bytes bs4 ;;
  ret ({| Timestamp := ts; NodeID := node; CollectionID := coll;
          SegmentIDs := segs; ChannelNames := chans |}, bs5).

(** A payload parses when it is one request and nothing more. *)
Definition parse_request (bs : list byte) : option Request :=
  match get_request bs with
  | Some (r, []) => Some r
  | _ => None
  end.

Section Codec.
(** [commonpb.MsgType] numbers the variants; the numbers are not among the
    sources and are taken as a parameter. *)
Variable code : MsgType -> N.

(** The variant a tag stands for, if any. *)
Definition typeOfTag (tag : N) : option MsgType :=
  find (fun ty => (code ty =? tag)%N) allMsgTypes.

(** Modelled from the spec: [marshal] of a task (section 4.1), a
    self-describing blob that holds the type tag and the request payload. *)
Definition marshal (t : Task) : list byte :=
  put_varint (code (msgType t)) ++ put_request (request t).

(** Modelled from the spec: [TaskScheduler.unmarshalTask] (sections 4.1 and
    6). The codec dispatches on the tag: a tag that is the number of no
    variant gives [ErrUnknownTaskType], a payload that does not parse gives
    [ErrCorruptTask], and so does a blob in which no tag can be read.
    Otherwise the task is rebuilt with the id supplied, the fields of its
    request, and the undefined state. *)
Definition unmarshalTask (id : Z) (blob : list byte) : Task + UnmarshalError :=
  match get_varint blob with
  | None => inr ErrCorruptTask
  | Some (tag, payload) =>
      match typeOfTag tag with
      | None => inr ErrUnknownTaskType
      | Some ty =>
          match parse_request payload with
          | None => inr ErrCorruptTask
          | Some r =>
              inl {| taskID := id; msgType := ty; state := taskUndefined;
                     request := r |}
          end
      end
  end.
End Codec.

(** What a request reads back as: its integer fields wrapped to their 64-bit
    types. *)
Definition wrapUint64 (z : Z) : Z := z mod 2 ^ 64.

Definition wrapInt64 (z : Z) : Z :=
  let u := z mod 2 ^ 64 in if u <? 2 ^ 63 then u else u - 2 ^ 64.

Definition wrapRequest (r : Request) : Request :=
  {| Timestamp := wrapUint64 (Timestamp r);
     NodeID := wrapInt64 (NodeID r);
     CollectionID := wrapInt64 (CollectionID r);
     SegmentIDs := map wrapInt64 (SegmentIDs r);
     ChannelNames := ChannelNames r |}.

(** A parser inverts a printer, up to [norm], whatever bytes follow. *)
Definition inverts {A} (get : Parser A) (put : A -> list byte)
           (norm : A -> A) : Prop :=
  forall x rest, get (put x ++ rest) = Some (norm x, rest).

(** *** The wire format, said without the parsers

    Which byte strings are a varint of a number, a field of each kind, a
    request, and a blob of a task: the format the parsers are to accept,
    and nothing else. A varint is a run of bytes with the high bit set,
    each carrying seven bits, ended by a byte without it; it need not be
    the shortest one for its number. *)
Inductive isVarint : N -> list byte -> Prop :=
| varint_last b :
    (Byte.to_N b < 128)%N ->
    isVarint (Byte.to_N b) [b]
| varint_more b hi enc :
    (128 <= Byte.to_N b)%N ->
    isVarint hi enc ->
    isVarint (Byte.to_N b - 128 + 128 * hi) (b :: enc).

(** A uint64 is the varint of its value, an int64 the varint of its 64-bit
    two's complement pattern. *)
Definition isUint64 (z : Z) (enc : list byte) : Prop :=
  0 <= z < 2 ^ 64 /\ isVarint (Z.to_N z) enc.

Definition isInt64 (z : Z) (enc : list byte) : Prop :=
  - 2 ^ 63 <= z < 2 ^ 63 /\ isVarint (Z.to_N (z mod 2 ^ 64)) enc.

Definition isBytes (s : list byte) (enc : list byte) : Prop :=
  exists len, isVarint (N.of_nat (List.length s)) len /\ enc = len ++ s.

Inductive isMany {A} (G : A -> list byte -> Prop)
  : list A -> list byte -> Prop :=
| many_nil : isMany G [] []
| many_cons x xs e es :
    G x e -> isMany G xs es -> isMany G (x :: xs) (e ++ es).

Definition isList {A} (G : A -> list byte -> Prop) (xs : list A)
           (enc : list byte) : Prop :=
  exists len es,
    isVarint (N.of_nat (List.length xs)) len /\ isMany G xs es /\
    enc = len ++ es.

Definition isRequest (r : Request) (enc : list byte) : Prop :=
  exists e1 e2 e3 e4 e5,
    isUint64 (Timestamp r) e1 /\ isInt64 (NodeID r) e2 /\
    isInt64 (CollectionID r) e3 /\ isList isInt64 (SegmentIDs r) e4 /\
    isList isBytes (ChannelNames r) e5 /\
    enc = e1 ++ e2 ++ e3 ++ e4 ++ e5.

(** A blob for the tag [tag] and the request [r]: a varint of the tag, then
    an encoding of the request. *)
Definition isBlob (tag : N) (r : Request) (blob : list byte) : Prop :=
  exists enc payload,
    isVarint tag enc /\ isRequest r payload /\ blob = enc ++ payload.

(** A blob that starts with a varint of [tag]. *)
Definition hasTag (tag : N) (blob : list byte) (payload : list byte) : Prop :=
  exists enc, isVarint tag enc /\ blob = enc ++ payload.

(** A parser accepts a format: it returns [x] and the bytes left exactly
    when the input is an encoding of [x] followed by those bytes. *)
Definition accepts {A} (get : Parser A) (G : A -> list byte -> Prop) : Prop :=
  forall bs x rest,
    get bs = Some (x, rest) <-> exists enc, G x enc /\ bs = enc ++ rest.

(** A numbering of the variants with distinct numbers, some of one byte and
    some of two, and a task, to run the codec on. *)
Definition exampleCode (ty : MsgType) : N :=
  match ty with
  | MsgType_LoadCollection => 106
  | MsgType_ReleaseCollection => 107
  | MsgType_LoadPartitions => 205
  | MsgType_ReleasePartitions => 206
  | MsgType_LoadSegments => 252
  | MsgType_ReleaseSegments => 253
  | MsgType_LoadBalanceSegments => 255
  | MsgType_WatchDmChannels => 508
  | MsgType_WatchQueryChannels => 510
  end.

Definition exampleTask : Task :=
  {| taskID := 101; msgType := MsgType_LoadSegments; state := taskDoing;
     request := {| Timestamp := 2; NodeID := -1; CollectionID := 7;
                   SegmentIDs := [1; 300; -5];
                   ChannelNames := [["d"; "m"; "l"]%byte; []] |} |}.

End querycoord.

(** ** The RPC methods of the client

    The closures that the methods of the client pass to [recall] call a
    method of [c.grpcClient], which panics when the stub is nil, and the
    methods assert the type of the value [recall] hands back. Both are
    modelled here, with [recall] written again for closures that can
    panic. *)
Module clientrpc.
Import grpcindexnodeclient.

(** A value of type [interface{}] as the methods see it: the nil interface,
    or a pointer (nil is [None]) to one of the three response types. *)
Inductive Iface (ComponentStates StringResponse Status : Type) : Type :=
| IfaceNil
| IfaceComponentStates (p : option ComponentStates)
| IfaceStringResponse (p : option StringResponse)
| IfaceStatus (p : option Status).
Arguments IfaceNil {ComponentStates StringResponse Status}.
Arguments IfaceComponentStates {ComponentStates StringResponse Status} p.
Arguments IfaceStringResponse {ComponentStates StringResponse Status} p.
Arguments IfaceStatus {ComponentStates StringResponse Status} p.

(** The methods of [indexpb.IndexNodeClient] the client uses, on a stub: the
    server and the network decide the pointer and the error returned. *)
Record IndexNodeMethods (World Conn ComponentStates StringResponse Status
                         CreateIndexRequest : Type) : Type := {
  stubGetComponentStates :
    IndexNodeClient Conn -> World ->
    (option ComponentStates * option error) * World;
  stubGetTimeTickChannel :
    IndexNodeClient Conn -> World ->
    (option StringResponse * option error) * World;
  stubGetStatisticsChannel :
    IndexNodeClient Conn -> World ->
    (option StringResponse * option error) * World;
  stubCreateIndex :
    IndexNodeClient Conn -> CreateIndexRequest -> World ->
    (option Status * option error) * World
}.
Arguments stubGetComponentStates {_ _ _ _ _ _} _ _ _.
Arguments stubGetTimeTickChannel {_ _ _ _ _ _} _ _ _.
Arguments stubGetStatisticsChannel {_ _ _ _ _ _} _ _ _.
Arguments stubCreateIndex {_ _ _ _ _ _} _ _ _ _.

(** The stub and the connection of a client go together: without a stub
    there is no connection, and a stub is the one made from the current
    connection, which is not nil. *)
Definition wired {Conn} (c : Client Conn) : Prop :=
  match grpcClient c with
  | None => conn c = None
  | Some stub => cc stub = conn c /\ conn c <> None
  end.

(** The last invocation of the caller in a log, with what it returned. *)
Definition lastCallFrom {Ret} (acc : option (Ret * option error))
           (tr : list (Event Ret)) : option (Ret * option error) :=
  fold_left (fun acc ev => match ev with EvCall v e => Some (v, e) | _ => acc end)
            tr acc.

Definition lastCall {Ret} (tr : list (Event Ret)) : option (Ret * option error) :=
  lastCallFrom None tr.

(** The exported methods of a client, as a caller names them. *)
Inductive Method (CreateIndexRequest : Type) : Type :=
| MInit
| MStart
| MStop
| MRegister
| MGetComponentStates
| MGetTimeTickChannel
| MGetStatisticsChannel
| MCreateIndex (req : CreateIndexRequest).
Arguments MInit {CreateIndexRequest}.
Arguments MStart {CreateIndexRequest}.
Arguments MStop {CreateIndexRequest}.
Arguments MRegister {CreateIndexRequest}.
Arguments MGetComponentStates {CreateIndexRequest}.
Arguments MGetTimeTickChannel {CreateIndexRequest}.
Arguments MGetStatisticsChannel {CreateIndexRequest}.
Arguments MCreateIndex {CreateIndexRequest} req.

Section Panics.
Context {World Conn Ret : Type}.
Variable DialContext : string -> Duration -> World -> (Conn + error) * World.

Local Abbreviation St := (St World Conn Ret).

(** Programs that may panic: [None] is a run that ended in a panic. *)
Definition MP : Type -> Type := stateT St option.

#[local] Existing Instance Monad_stateT.

Definition panic {A} : MP A := mkStateT (fun _ => None).

(** A method that does not panic, run where panics are possible. *)
Definition lift {A} (c : state St A) : MP A :=
  mkStateT (fun s => Some (runState c s)).

(** A run from [s] that panics, and one that returns with [post] true of
    the value and the final state. *)
Definition panics {A} (m : MP A) (s : St) : Prop := runStateT m s = None.

Definition returns {A} (m : MP A) (s : St) (post : A -> St -> Prop) : Prop :=
  exists a s', runStateT m s = Some (a, s') /\ post a s'.

(** A caller closure that may panic instead of returning. *)
Definition CallerP := Client Conn -> World -> option ((Ret * option error) * World).

(** [caller()], logged when it returns. *)
Definition invokeP (caller : CallerP) : MP (Ret * option error) :=
  s <- get ;;
  match caller (client s) (world s) with
  | None => panic
  | Some (r, w) =>
      put {| client := client s; world := w; events := events s |} ;;
      lift (logEvent (EvCall (fst r) (snd r))) ;;
      ret r
  end.

(** The loop of [recall], and [recall], for such a closure: a panic of the
    closure ends the run. *)
Fixpoint recallLoopP (n : nat) (caller : CallerP) (ret0 : Ret)
         (err0 : option error) : MP (Ret * option error) :=
  match n with
  | O => ret (ret0, err0)
  | S n' =>
      err <- lift (reconnect DialContext) ;;
      match err with
      | None =>
          r <- invokeP caller ;;
          match snd r with
          | None => ret (fst r, None)
          | Some e => recallLoopP n' caller (fst r) (Some e)
          end
      | Some e => recallLoopP n' caller ret0 (Some e)
      end
  end.

Definition recallP (caller : CallerP) : MP (Ret * option error) :=
  r <- invokeP caller ;;
  match snd r with
  | None => ret (fst r, None)
  | Some e =>
      s <- get ;;
      recallLoopP (Z.to_nat (recallTry (client s))) caller (fst r) (Some e)
  end.

End Panics.

Section Methods.
Context {World Conn ComponentStates StringResponse Status
         CreateIndexRequest : Type}.
Variable DialContext : string -> Duration -> World -> (Conn + error) * World.
Variable node : IndexNodeMethods World Conn ComponentStates StringResponse
                                 Status CreateIndexRequest.

Local Abbreviation Iface := (Iface ComponentStates StringResponse Status).
Local Abbreviation St := (St World Conn Iface).

#[local] Existing Instance Monad_stateT.

(** The closure [func() (interface{}, error) { return c.grpcClient.M(...) }]
    for a method [M] of the stub that returns a pointer wrapped by [wrap]:
    calling a method of a nil [c.grpcClient] panics. *)
Definition stubCall {T} (wrap : option T -> Iface)
           (method : IndexNodeClient Conn -> World -> (option T * option error) * World)
  : @CallerP World Conn Iface :=
  fun c w =>
    match grpcClient c with
    | None => None
    | Some stub =>
        let '((p, err), w') := method stub w in Some ((wrap p, err), w')
    end.

(** The same closure with an answer where it panics, a nil pointer and no
    error: [recall] can run it, and on a client with a stub it is the
    closure. *)
Definition stubCallTotal {T} (wrap : option T -> Iface)
           (method : IndexNodeClient Conn -> World -> (option T * option error) * World)
  : @Caller World Conn Iface :=
  fun c w =>
    match stubCall wrap method c w with
    | Some r => r
    | None => ((wrap None, None), w)
    end.

(** [func (c *Client) GetComponentStates(ctx)]; the type assertion
    [ret.( *internalpb.ComponentStates)] panics on any other dynamic type. *)
Definition GetComponentStates : MP (option ComponentStates * option error) :=
  r <- recallP DialContext
         (stubCall IfaceComponentStates (stubGetComponentStates node)) ;;
  match fst r with
  | IfaceComponentStates p => ret (p, snd r)
  | _ => panic
  end.

(** [func (c *Client) GetTimeTickChannel(ctx)] *)
Definition GetTimeTickChannel : MP (option StringResponse * option error) :=
  r <- recallP DialContext
         (stubCall IfaceStringResponse (stubGetTimeTickChannel node)) ;;
  match fst r with
  | IfaceStringResponse p => ret (p, snd r)
  | _ => panic
  end.

(** [func (c *Client) GetStatisticsChannel(ctx)] *)
Definition GetStatisticsChannel : MP (option StringResponse * option error) :=
  r <- recallP DialContext
         (stubCall IfaceStringResponse (stubGetStatisticsChannel node)) ;;
  match fst r with
  | IfaceStringResponse p => ret (p, snd r)
  | _ => panic
  end.

(** [func (c *Client) CreateIndex(ctx, req)] *)
Definition CreateIndex (req : CreateIndexRequest)
  : MP (option Status * option error) :=
  r <- recallP DialContext
         (stubCall IfaceStatus (fun stub => stubCreateIndex node stub req)) ;;
  match fst r with
  | IfaceStatus p => ret (p, snd r)
  | _ => panic
  end.

(** [func (c *Client) Start() error], [Stop] and [Register]: each returns
    nil and does nothing else. *)
Definition Start : state St (option error) := ret None.
Definition Stop : state St (option error) := ret None.
Definition Register : state St (option error) := ret None.

(** One call of an exported method, keeping the error it returns, and a
    program that makes such calls one after the other; a panic ends it. *)
Definition callMethod (m : Method CreateIndexRequest) : MP (option error) :=
  match m with
  | MInit => lift (Init DialContext)
  | MStart => lift Start
  | MStop => lift Stop
  | MRegister => lift Register
  | MGetComponentStates => r <- GetComponentStates ;; ret (snd r)
  | MGetTimeTickChannel => r <- GetTimeTickChannel ;; ret (snd r)
  | MGetStatisticsChannel => r <- GetStatisticsChannel ;; ret (snd r)
  | MCreateIndex req => r <- CreateIndex req ;; ret (snd r)
  end.

Fixpoint callAll (ms : list (Method CreateIndexRequest))
  : MP (list (option error)) :=
  match ms with
  | [] => ret []
  | m :: ms' =>
      e <- callMethod m ;;
      es <- callAll ms' ;;
      ret (e :: es)
  end.

(** What a method that returned has done, [wrap] being the constructor of
    its response type: the client still has a stub; the RPC was invoked at
    most once more than [recallTry]; the pointer returned is the one the last
    invocation returned, and the error is nil exactly when that invocation
    succeeded. *)
Definition answered {T} (wrap : option T -> Iface) (s : St)
  : option T * option error -> St -> Prop :=
  fun r s' =>
    grpcClient (client s') <> None /\
    exists tr e,
      events s' = events s ++ tr /\
      (count isCall tr <= 1 + Z.to_nat (recallTry (client s)))%nat /\
      lastCall tr = Some (wrap (fst r), e) /\
      (snd r = None <-> e = None).

End Methods.

End clientrpc.

(** ** A concrete index node *)
Module RPCExamples.
Import grpcindexnodeclient clientrpc ClientExamples.

(** A node that reports its state, names its time tick channel, builds
    indexes, and fails to name its statistics channel. *)
Definition exampleNode
  : IndexNodeMethods nat unit string string string string :=
  {| stubGetComponentStates :=
       fun _ w => ((Some "Healthy"%string, None), w);
     stubGetTimeTickChannel :=
       fun _ w => ((Some "by-dev-time-tick"%string, None), w);
     stubGetStatisticsChannel :=
       fun _ w => ((None, Some "rpc failed"%string), w);
     stubCreateIndex :=
       fun _ req w => ((Some "Success"%string, None), w) |}.

(** The client of [NewClient], and the same client once connected. *)
Definition stNew : St nat unit (Iface string string string) :=
  {| client := client0; world := 0%nat; events := [] |}.

Definition client1 : Client unit :=
  {| grpcClient := Some (NewIndexNodeClient (Some tt)); conn := Some tt;
     address := "localhost:21121"; timeout := 3000 * Millisecond;
     reconnTry := 10; recallTry := 3 |}.

Definition stConnected : St nat unit (Iface string string string) :=
  {| client := client1; world := 0%nat; events := [] |}.

(** A client configured without retries. *)
Definition stNoRetry : St nat unit string :=
  {| client := {| grpcClient := None; conn := None;
                  address := "localhost:21121";
                  timeout := 3000 * Millisecond;
                  reconnTry := 10; recallTry := 0 |};
     world := 0%nat; events := [] |}.

End RPCExamples.

Module ClientFacts.
Import grpcindexnodeclient.

(** Split a conjunction into its parts, leaving the definitions folded. *)
Ltac splits :=
  repeat match goal with |- _ /\ _ => split end.

Section Facts.
Context {World Conn Ret : Type}.
Variable DialContext : string -> Duration -> World -> (Conn + error) * World.

Local Abbreviation St := (St World Conn Ret).

Lemma sameConfig_refl (c : Client Conn) : sameConfig c c.
Proof. repeat split. Qed.

Lemma sameConfig_trans (c1 c2 c3 : Client Conn) :
  sameConfig c1 c2 -> sameConfig c2 c3 -> sameConfig c1 c3.
Proof. unfold sameConfig; intuition congruence. Qed.

Lemma connectGrpcFunc_run (s s' : St) r :
  runState (connectGrpcFunc DialContext) s = (r, s') ->
  events s' = events s ++ [EvDial r] /\
  sameConfig (client s) (client s') /\
  (r = None -> conn (client s') <> None) /\
  (r <> None -> client s' = client s).
Proof.
  unfold connectGrpcFunc; cbn.
  destruct (DialContext _ _ _) as [[cn | e] w]; cbn;
    intros E; inversion E; subst; cbn; repeat split; congruence.
Qed.

Lemma retryLoop_unfold more d (fn : state St (option error)) (s : St) :
  runState (retryLoop more d fn) s =
  let (r, s1) := runState fn s in
  match r with
  | None => (None, s1)
  | Some e =>
      match more with
      | O => (Some e, s1)
      | S more' => runState (retryLoop more' d fn) (addEvent (EvSleep d) s1)
      end
  end.
Proof.
  destruct more; cbn; destruct (runState fn s) as [[e|] s1];
    try reflexivity; destruct more; reflexivity.
Qed.

Lemma retryLoop_run more d (s s' : St) r :
  runState (retryLoop more d (connectGrpcFunc DialContext)) s = (r, s') ->
  exists errs,
    events s' = events s ++ retryTrace d errs r /\
    (List.length errs <= more)%nat /\
    (r <> None -> List.length errs = more) /\
    sameConfig (client s) (client s') /\
    (r = None -> conn (client s') <> None).
Proof.
  revert s; induction more as [|more IH]; intros s; rewrite retryLoop_unfold;
    destruct (runState (connectGrpcFunc DialContext) s) as [r1 s1] eqn:E1;
    apply connectGrpcFunc_run in E1; destruct E1 as (Ev & Cf & Cn & _).
  - destruct r1 as [e|]; intros E; inversion E; subst;
      exists []; cbn; splits; auto; try lia; congruence.
  - destruct r1 as [e|].
    + intros E; apply IH in E; destruct E as (errs & Ev' & Le & Eq & Cf' & Cn').
      change (events (addEvent (EvSleep d) s1))
        with (events s1 ++ [EvSleep d]) in Ev'.
      change (client (addEvent (EvSleep d) s1)) with (client s1) in Cf'.
      exists (e :: errs); splits; auto.
      * rewrite Ev', Ev, <- !app_assoc; reflexivity.
      * cbn; lia.
      * intros H; specialize (Eq H); cbn; lia.
      * eapply sameConfig_trans; [exact Cf|exact Cf'].
    + intros E; inversion E; subst.
      exists []; cbn; splits; auto; try lia; congruence.
Qed.

(** *** Counting and scanning logs *)

Lemma count_app (p : Event Ret -> bool) a b :
  count p (a ++ b) = (count p a + count p b)%nat.
Proof. unfold count; rewrite filter_app, length_app; reflexivity. Qed.

Lemma count_cons (p : Event Ret -> bool) ev tr :
  count p (ev :: tr) = ((if p ev then 1 else 0) + count p tr)%nat.
Proof. unfold count; cbn; destruct (p ev); reflexivity. Qed.

Lemma count_nil (p : Event Ret -> bool) : count p [] = 0%nat.
Proof. reflexivity. Qed.

Lemma scan_app (sep : Event Ret -> bool) a b p :
  scan sep p (a ++ b) =
  match scan sep p a with Some q => scan sep q b | None => None end.
Proof.
  revert p; induction a as [|ev a IH]; intros p; cbn; [reflexivity|].
  destruct (isCall ev); [destruct p; auto|destruct (sep ev); auto].
Qed.

Lemma lastError_snoc (tr : list (Event Ret)) ev :
  lastError (tr ++ [ev]) = errorOf ev.
Proof. unfold lastError; rewrite rev_app_distr; reflexivity. Qed.

Lemma lastError_app (a b : list (Event Ret)) :
  b <> [] -> lastError (a ++ b) = lastError b.
Proof.
  intros H; destruct (exists_last H) as (b' & ev & ->).
  rewrite app_assoc, !lastError_snoc; reflexivity.
Qed.

(** *** The log of a retry *)

Lemma retryTrace_cons d e errs (r : option error) :
  @retryTrace Ret d (e :: errs) r =
  EvDial (Some e) :: EvSleep d :: retryTrace d errs r.
Proof. reflexivity. Qed.

Lemma retryTrace_nil d (r : option error) :
  @retryTrace Ret d [] r = [EvDial r].
Proof. reflexivity. Qed.

Lemma count_retryTrace_dial d errs (r : option error) :
  count isDial (@retryTrace Ret d errs r) = S (List.length errs).
Proof.
  induction errs as [|e errs IH]; [reflexivity|].
  rewrite retryTrace_cons, !count_cons, IH; reflexivity.
Qed.

Lemma count_retryTrace_sleep d errs (r : option error) :
  count isSleep (@retryTrace Ret d errs r) = List.length errs.
Proof.
  induction errs as [|e errs IH]; [reflexivity|].
  rewrite retryTrace_cons, !count_cons, IH; reflexivity.
Qed.

Lemma count_retryTrace_other (p : Event Ret -> bool) d errs r :
  (forall e, p (EvDial e) = false) -> (forall d', p (EvSleep d') = false) ->
  count p (retryTrace d errs r) = 0%nat.
Proof.
  intros Hd Hs; induction errs as [|e errs IH].
  - rewrite retryTrace_nil, count_cons, Hd; reflexivity.
  - rewrite retryTrace_cons, !count_cons, Hd, Hs, IH; reflexivity.
Qed.

Lemma sleeps_retryTrace d errs (r : option error) :
  Forall (fun ev => isSleep ev = true -> ev = EvSleep d)
         (@retryTrace Ret d errs r).
Proof.
  induction errs as [|e errs IH].
  - repeat constructor; discriminate.
  - rewrite retryTrace_cons; repeat constructor; auto; discriminate.
Qed.

Lemma scan_retryTrace (sep : Event Ret -> bool) p d errs r :
  (forall e, sep (EvDial e) = false) -> (forall d', sep (EvSleep d') = false) ->
  scan sep p (retryTrace d errs r) = Some p.
Proof.
  intros Hd Hs; induction errs as [|e errs IH].
  - rewrite retryTrace_nil; cbn; rewrite Hd; reflexivity.
  - rewrite retryTrace_cons; cbn; rewrite Hd, Hs; exact IH.
Qed.

(** *** The methods and their logs *)

Lemma Init_run (s s' : St) r :
  runState (Init DialContext) s = (r, s') ->
  exists errs,
    events s' = events s ++ retryTrace (Millisecond * 200) errs r /\
    (List.length errs <= Z.to_nat (100000 - 1))%nat /\
    (r <> None -> List.length errs = Z.to_nat (100000 - 1)) /\
    sameConfig (client s) (client s') /\
    (r = None -> conn (client s') <> None /\
                 grpcClient (client s') =
                 Some (NewIndexNodeClient (conn (client s')))).
Proof.
  unfold Init, Retry.
  change (runState (bind ?c ?f) s)
    with (let (v, s0) := runState c s in runState (f v) s0).
  destruct (runState (retryLoop _ _ _) s) as [r1 s1] eqn:E1.
  apply retryLoop_run in E1; destruct E1 as (errs & Ev & Le & Eq & Cf & Cn).
  destruct r1 as [e|]; cbn; intros E; inversion E; subst; clear E;
    exists errs; splits; auto; discriminate.
Qed.

Lemma reconnect_run (s s' : St) r :
  runState (reconnect DialContext) s = (r, s') ->
  exists rt,
    events s' = events s ++ rt /\
    reconnectTrace (Z.to_nat (reconnTry (client s) - 1)) rt r /\
    sameConfig (client s) (client s') /\
    (r = None -> conn (client s') <> None /\
                 grpcClient (client s') =
                 Some (NewIndexNodeClient (conn (client s')))).
Proof.
  unfold reconnect, Retry.
  change (runState (bind get ?f) s) with (runState (f s) s); cbn beta.
  change (runState (bind ?c ?f) s)
    with (let (v, s0) := runState c s in runState (f v) s0).
  destruct (runState (retryLoop _ _ _) s) as [r1 s1] eqn:E1.
  apply retryLoop_run in E1; destruct E1 as (errs & Ev & Le & Eq & Cf & Cn).
  destruct r1 as [e|]; cbn; intros E; inversion E; subst r s'; clear E;
    match goal with
    | |- context [reconnectTrace _ _ ?r] =>
        exists (retryTrace (500 * Millisecond) errs r ++ [EvReconnect r])
    end; cbn; splits; auto; try discriminate;
    try (rewrite Ev, app_assoc; reflexivity);
    try (exists errs; splits; auto).
Qed.

Lemma invoke_run (caller : Caller) (s s' : St) r :
  runState (invoke caller) s = (r, s') ->
  r = fst (caller (client s) (world s)) /\
  events s' = events s ++ [EvCall (fst r) (snd r)] /\
  client s' = client s.
Proof.
  unfold invoke; cbn.
  destruct (caller (client s) (world s)) as [r0 w]; cbn.
  intros E; inversion E; subst; auto.
Qed.

Lemma recallLoop_unfold n (caller : Caller) ret0 err0 (s : St) :
  runState (recallLoop DialContext (S n) caller ret0 err0) s =
  let (err, s1) := runState (reconnect DialContext) s in
  match err with
  | None =>
      let (r, s2) := runState (invoke caller) s1 in
      match snd r with
      | None => ((fst r, None), s2)
      | Some e => runState (recallLoop DialContext n caller (fst r) (Some e)) s2
      end
  | Some e => runState (recallLoop DialContext n caller ret0 (Some e)) s1
  end.
Proof.
  change (runState (recallLoop DialContext (S n) caller ret0 err0) s)
    with (let (err, s1) := runState (reconnect DialContext) s in
          runState
            (match err with
             | None =>
                 bind (invoke caller) (fun r =>
                   match snd r with
                   | None => ret (fst r, None)
                   | Some e => recallLoop DialContext n caller (fst r) (Some e)
                   end)
             | Some e => recallLoop DialContext n caller ret0 (Some e)
             end) s1).
  destruct (runState (reconnect DialContext) s) as [[e|] s1]; [reflexivity|].
  change (runState (bind ?c ?f) s1)
    with (let (v, s0) := runState c s1 in runState (f v) s0).
  destruct (runState (invoke caller) s1) as [[v [e|]] s2]; reflexivity.
Qed.

Lemma recallLoop_run n (caller : Caller) ret0 err0 (s s' : St) res :
  runState (recallLoop DialContext n caller ret0 err0) s = (res, s') ->
  exists tr,
    events s' = events s ++ tr /\
    loopTrace (Z.to_nat (reconnTry (client s) - 1)) n ret0 err0 tr res /\
    sameConfig (client s) (client s').
Proof.
  revert s ret0 err0; induction n as [|n IH]; intros s ret0 err0.
  - cbn; intros E; inversion E; subst.
    exists []; splits; [now rewrite app_nil_r|constructor|apply sameConfig_refl].
  - rewrite recallLoop_unfold.
    destruct (runState (reconnect DialContext) s) as [err s1] eqn:E1.
    apply reconnect_run in E1; destruct E1 as (rt & Ev1 & Rt & Cf1 & _).
    assert (K : reconnTry (client s1) = reconnTry (client s))
      by (destruct Cf1 as (_ & _ & K & _); exact K).
    destruct err as [e|].
    + intros E; apply IH in E; destruct E as (tr & Ev & Lt & Cf).
      rewrite K in Lt.
      exists (rt ++ tr); splits.
      * rewrite Ev, Ev1, app_assoc; reflexivity.
      * eapply loop_reconnect_failed; eauto.
      * eapply sameConfig_trans; eauto.
    + destruct (runState (invoke caller) s1) as [r s2] eqn:E2.
      apply invoke_run in E2; destruct E2 as (_ & Ev2 & C2).
      destruct r as [v [e|]]; cbn [fst snd] in *.
      * intros E; apply IH in E; destruct E as (tr & Ev & Lt & Cf).
        rewrite C2, K in Lt; rewrite C2 in Cf.
        exists (rt ++ EvCall v (Some e) :: tr); splits.
        -- rewrite Ev, Ev2, Ev1, <- !app_assoc; reflexivity.
        -- eapply loop_call_failed; eauto.
        -- eapply sameConfig_trans; eauto.
      * intros E; inversion E; subst.
        exists (rt ++ [EvCall v None]); splits.
        -- rewrite Ev2, Ev1, app_assoc; reflexivity.
        -- eapply loop_call_ok; eauto.
        -- rewrite C2; exact Cf1.
Qed.

Lemma recall_run (caller : Caller) (s s' : St) res :
  runState (recall DialContext caller) s = (res, s') ->
  exists tr,
    events s' = events s ++ tr /\
    recallTrace (Z.to_nat (reconnTry (client s) - 1))
                (Z.to_nat (recallTry (client s))) tr res /\
    (exists tl, tr = EvCall (fst (fst (caller (client s) (world s))))
                            (snd (fst (caller (client s) (world s)))) :: tl) /\
    sameConfig (client s) (client s').
Proof.
  unfold recall.
  change (runState (bind ?c ?f) s)
    with (let (v, s0) := runState c s in runState (f v) s0).
  destruct (runState (invoke caller) s) as [r s1] eqn:E1.
  apply invoke_run in E1; destruct E1 as (R & Ev1 & C1).
  rewrite <- R.
  destruct r as [v [e|]]; cbn [fst snd] in *.
  - change (runState (bind get ?f) s1) with (runState (f s1) s1); cbn beta.
    intros E; apply recallLoop_run in E; destruct E as (tr & Ev & Lt & Cf).
    rewrite C1 in Lt, Cf.
    exists (EvCall v (Some e) :: tr); splits; eauto.
    + rewrite Ev, Ev1, <- app_assoc; reflexivity.
    + constructor; exact Lt.
  - intros E; inversion E; subst.
    exists [EvCall v None]; splits; eauto.
    + constructor.
    + rewrite C1; apply sameConfig_refl.
Qed.

End Facts.

(** Normalise the counts of a log built from appends, conses and retry
    logs. *)
Ltac count_simpl :=
  repeat (rewrite count_app || rewrite count_cons || rewrite count_nil
          || rewrite count_retryTrace_dial || rewrite count_retryTrace_sleep
          || rewrite count_retryTrace_other by (intros; reflexivity));
  cbn [isCall isCallOk isDial isSleep isReconnect isReconnectOk isReconnectErr].

Section Shapes.
Context {Ret : Type}.
Implicit Types (tr rt : list (Event Ret)) (res : Ret * option error).

Lemma reconnectTrace_counts k rt r :
  reconnectTrace k rt r ->
  count isCall rt = 0%nat /\ count isCallOk rt = 0%nat /\
  count isReconnect rt = 1%nat /\
  count isReconnectOk rt = (match r with Some _ => 0 | None => 1 end)%nat /\
  count isReconnectErr rt = (match r with Some _ => 1 | None => 0 end)%nat /\
  (count isDial rt <= S k)%nat /\ (count isSleep rt <= k)%nat.
Proof.
  intros (errs & -> & Le & _); count_simpl.
  destruct r; splits; cbn; lia.
Qed.

Lemma reconnectTrace_sleeps k rt r :
  reconnectTrace k rt r -> sleepsAre (500 * Millisecond) rt.
Proof.
  intros (errs & -> & _); apply Forall_app; split.
  - apply sleeps_retryTrace.
  - repeat constructor; discriminate.
Qed.

Lemma reconnectTrace_scan k rt r p :
  reconnectTrace k rt r ->
  scan isReconnectOk p rt = Some (match r with None => false | Some _ => p end).
Proof.
  intros (errs & -> & _).
  rewrite scan_app, scan_retryTrace by reflexivity.
  destruct r; reflexivity.
Qed.

Lemma reconnectTrace_last k rt r :
  reconnectTrace k rt r ->
  exists older, rt = older ++ [EvDial r; EvReconnect r].
Proof.
  intros (errs & -> & _); unfold retryTrace.
  rewrite <- app_assoc; eexists; reflexivity.
Qed.

Lemma count_reconnect_split tr :
  (count isReconnectOk tr + count isReconnectErr tr)%nat = count isReconnect tr.
Proof.
  induction tr as [|ev tr IH]; [reflexivity|].
  count_simpl; destruct ev as [? ?|?|?|[?|]]; cbn; lia.
Qed.

Lemma loopTrace_counts k n ret0 err0 tr res :
  loopTrace k n ret0 err0 tr res ->
  (count isReconnect tr <= n)%nat /\
  count isCall tr = count isReconnectOk tr /\
  (count isDial tr <= S k * count isReconnect tr)%nat /\
  (count isSleep tr <= k * count isReconnect tr)%nat.
Proof.
  induction 1 as [ret0 err0
                 |n ret0 err0 rt e tr res Rt Lt IH
                 |n ret0 err0 rt v e tr res Rt Lt IH
                 |n ret0 err0 rt v Rt];
    try destruct IH as (I1 & I2 & I3 & I4);
    try (apply reconnectTrace_counts in Rt;
         destruct Rt as (R1 & _ & R2 & R3 & _ & R4 & R5));
    count_simpl; splits; cbn; nia.
Qed.

Lemma loopTrace_sleeps k n ret0 err0 tr res :
  loopTrace k n ret0 err0 tr res -> sleepsAre (500 * Millisecond) tr.
Proof.
  induction 1 as [ret0 err0
                 |n ret0 err0 rt e tr res Rt Lt IH
                 |n ret0 err0 rt v e tr res Rt Lt IH
                 |n ret0 err0 rt v Rt];
    try apply reconnectTrace_sleeps in Rt; unfold sleepsAre in *.
  - constructor.
  - apply Forall_app; split; assumption.
  - apply Forall_app; split; [assumption|].
    constructor; [discriminate|assumption].
  - apply Forall_app; split; [assumption|].
    constructor; [discriminate|constructor].
Qed.

Lemma loopTrace_scan k n ret0 err0 tr res :
  loopTrace k n ret0 err0 tr res ->
  exists q, scan isReconnectOk true tr = Some q.
Proof.
  induction 1 as [ret0 err0
                 |n ret0 err0 rt e tr res Rt Lt IH
                 |n ret0 err0 rt v e tr res Rt Lt IH
                 |n ret0 err0 rt v Rt];
    try destruct IH as (q & IH).
  - exists true; reflexivity.
  - exists q; rewrite scan_app, (reconnectTrace_scan _ _ _ _ Rt); exact IH.
  - exists q; rewrite scan_app, (reconnectTrace_scan _ _ _ _ Rt); exact IH.
  - exists true; rewrite scan_app, (reconnectTrace_scan _ _ _ _ Rt); reflexivity.
Qed.

(** The result of the loop: a success is the result of the last caller
    invocation, and no earlier invocation succeeded; an error is the error
    of the last event, or the error the loop started with when it did
    nothing. *)
Lemma loopTrace_result k n ret0 e0 tr res :
  loopTrace k n ret0 (Some e0) tr res ->
  match snd res with
  | None =>
      exists older, tr = older ++ [EvCall (fst res) None] /\
                    count isCallOk older = 0%nat
  | Some e =>
      count isCallOk tr = 0%nat /\
      (tr = [] /\ res = (ret0, Some e0) \/ tr <> [] /\ lastError tr = Some e)
  end.
Proof.
  remember (Some e0) as err0 eqn:E0; intros H; revert e0 E0.
  induction H as [ret0 err0
                 |n ret0 err0 rt e tr res Rt Lt IH
                 |n ret0 err0 rt v e tr res Rt Lt IH
                 |n ret0 err0 rt v Rt]; intros e0 E0; subst.
  - cbn; split; [reflexivity|left; auto].
  - specialize (IH e eq_refl).
    pose proof (reconnectTrace_counts _ _ _ Rt) as (_ & R1 & _).
    destruct (reconnectTrace_last _ _ _ Rt) as (o & Ert).
    destruct res as [v' [e'|]]; cbn [fst snd] in *.
    + destruct IH as (C & [(-> & E)|(Ne & L)]); count_simpl; split; try lia.
      * inversion E; subst; right; split; [destruct o; discriminate|].
        rewrite app_nil_r, lastError_app by discriminate; reflexivity.
      * right; split; [destruct rt; [exact Ne|discriminate]|].
        rewrite lastError_app; auto.
    + destruct IH as (older & -> & C).
      exists (rt ++ older); split; [now rewrite app_assoc|].
      count_simpl; lia.
  - specialize (IH e eq_refl).
    pose proof (reconnectTrace_counts _ _ _ Rt) as (_ & R1 & _).
    destruct res as [v' [e'|]]; cbn [fst snd] in *.
    + destruct IH as (C & [(-> & E)|(Ne & L)]); count_simpl; split; try lia.
      * inversion E; subst; right; split; [destruct rt; discriminate|].
        rewrite lastError_snoc; reflexivity.
      * right; split; [destruct rt; discriminate|].
        change (EvCall v (Some e) :: tr) with ([EvCall v (Some e)] ++ tr).
        rewrite app_assoc, lastError_app; auto.
    + destruct IH as (older & -> & C).
      exists (rt ++ EvCall v (Some e) :: older); split.
      * rewrite <- app_assoc; reflexivity.
      * count_simpl; lia.
  - cbn.
    pose proof (reconnectTrace_counts _ _ _ Rt) as (_ & R1 & _).
    exists rt; split; auto.
Qed.

(** When no reconnect succeeds, every iteration is spent on a failed
    reconnect, the caller is not invoked, and the loop returns the result
    value it started with and the error of the last reconnect. *)
Lemma loopTrace_all_failed k n ret0 err0 tr res :
  loopTrace k n ret0 err0 tr res ->
  count isReconnectOk tr = 0%nat ->
  count isCall tr = 0%nat /\ count isReconnectErr tr = n /\
  (n = 0%nat /\ tr = [] /\ res = (ret0, err0) \/
   exists older e,
     tr = older ++ [EvDial (Some e); EvReconnect (Some e)] /\
     res = (ret0, Some e)).
Proof.
  induction 1 as [ret0 err0
                 |n ret0 err0 rt e tr res Rt Lt IH
                 |n ret0 err0 rt v e tr res Rt Lt IH
                 |n ret0 err0 rt v Rt];
    try (pose proof (reconnectTrace_counts _ _ _ Rt)
          as (R1 & _ & _ & R2 & R3 & _));
    count_simpl; intros Z0; try lia.
  - splits; auto.
  - destruct IH as (I1 & I2 & I3); [lia|].
    splits; try lia.
    right; destruct I3 as [(-> & -> & ->)|(older & e' & -> & ->)].
    + destruct (reconnectTrace_last _ _ _ Rt) as (o & ->).
      exists o, e; rewrite app_nil_r; auto.
    + exists (rt ++ older), e'; rewrite app_assoc; auto.
Qed.

(** The loop returns an error only once every iteration is spent. *)
Lemma loopTrace_error_exhausts k n ret0 err0 tr res :
  loopTrace k n ret0 err0 tr res ->
  snd res <> None ->
  count isReconnect tr = n.
Proof.
  induction 1 as [ret0 err0
                 |n ret0 err0 rt e tr res Rt Lt IH
                 |n ret0 err0 rt v e tr res Rt Lt IH
                 |n ret0 err0 rt v Rt];
    try (pose proof (reconnectTrace_counts _ _ _ Rt) as (_ & _ & R1 & _));
    count_simpl; cbn; intros E; try (specialize (IH E)); try lia.
  destruct E; reflexivity.
Qed.

End Shapes.

(** ** The claims about the index-node client *)
Section Claims.
Context {World Conn Ret : Type}.
Variable DialContext : string -> Duration -> World -> (Conn + error) * World.

Local Abbreviation St := (St World Conn Ret).
Local Abbreviation Caller := (@Caller World Conn Ret).

(** C5. [recall] returns the first successful result of the caller
    closure: when it returns a nil error, its result is the one of the
    last invocation logged, no earlier invocation succeeded, and at most
    [recallTry] reconnects were made. It returns an error only when no
    invocation within the bound succeeded: no invocation of the log
    succeeded, every one of the [recallTry] iterations was spent on a
    reconnect, and the error returned is the last error met, the error of
    the last event of the run. In every run the caller is invoked once at
    the start and once after each reconnect that succeeded. *)
Theorem recall_first_success_or_last_error (caller : Caller) (s : St) :
  let (res, s') := runState (recall DialContext caller) s in
  exists tr,
    events s' = events s ++ tr /\
    count isCall tr = (1 + count isReconnectOk tr)%nat /\
    match snd res with
    | None =>
        (exists older, tr = older ++ [EvCall (fst res) None] /\
                       count isCallOk older = 0%nat) /\
        (count isReconnect tr <= Z.to_nat (recallTry (client s)))%nat
    | Some e =>
        count isCallOk tr = 0%nat /\ lastError tr = Some e /\
        count isReconnect tr = Z.to_nat (recallTry (client s))
    end.
Proof.
  destruct (runState (recall DialContext caller) s) as [res s'] eqn:E.
  apply recall_run in E; destruct E as (tr & Ev & Rt & _ & _).
  exists tr; split; [exact Ev|].
  destruct Rt as [v|v e tr res Lt]; cbn [fst snd].
  - splits; [reflexivity|exists []; split; reflexivity|count_simpl; cbn; lia].
  - pose proof (loopTrace_counts _ _ _ _ _ _ Lt) as (C1 & C2 & _).
    pose proof (loopTrace_error_exhausts _ _ _ _ _ _ Lt) as Ex.
    pose proof (loopTrace_result _ _ _ _ _ _ Lt) as Rs.
    split; [count_simpl; cbn; lia|].
    destruct res as [v' [e'|]]; cbn [fst snd] in *.
    + destruct Rs as (C & [(-> & E)|(Ne & L)]); count_simpl; splits; auto.
      * inversion E; reflexivity.
      * cbn; apply Ex; discriminate.
      * change (EvCall v (Some e) :: tr) with ([EvCall v (Some e)] ++ tr).
        rewrite lastError_app; auto.
      * cbn; apply Ex; discriminate.
    + destruct Rs as (older & -> & C); split.
      * exists (EvCall v (Some e) :: older); split; [reflexivity|].
        count_simpl; lia.
      * count_simpl; cbn; revert C1; count_simpl; cbn; lia.
Qed.

(** C6, as the code has it. On a client built by [NewClient]
    ([recallTry] 3, [reconnTry] 10) the log of [recall] is the first
    invocation of the caller, followed, when it failed, by the iterations
    of the loop ([recallTrace 9 3]). An iteration is one reconnect, which
    is a run of failed dials each followed by one sleep of 500 ms, then
    the dial that decides: a success after at most 9 failures, or the
    tenth failure; after a reconnect that succeeded the caller is invoked
    again at once, and an iteration whose reconnect failed ends there.
    The loop stops at the first invocation that succeeds, and otherwise
    after exactly 3 iterations. So the caller is retried at most 3 times,
    a successful reconnect lies between two consecutive invocations, and
    the sleeps of 500 ms lie between the dials of one reconnect: [recall]
    itself does not wait between two invocations. *)
Theorem recall_reconnects_between_attempts (caller : Caller) (s : St) :
  recallTry (client s) = 3 ->
  reconnTry (client s) = 10 ->
  let (res, s') := runState (recall DialContext caller) s in
  exists tr,
    events s' = events s ++ tr /\
    recallTrace 9 3 tr res /\
    (snd res <> None -> count isReconnect tr = 3%nat) /\
    count isCall tr = (1 + count isReconnectOk tr)%nat /\
    (count isCall tr <= 1 + 3)%nat /\
    (count isReconnect tr <= 3)%nat /\
    separated isReconnectOk tr = true /\
    sleepsAre (500 * Millisecond) tr /\
    (count isDial tr <= 10 * count isReconnect tr)%nat /\
    (count isSleep tr <= 9 * count isReconnect tr)%nat.
Proof.
  intros Hn Hk.
  destruct (runState (recall DialContext caller) s) as [res s'] eqn:E.
  apply recall_run in E; destruct E as (tr & Ev & Rt & _ & _).
  rewrite Hn, Hk in Rt.
  change (Z.to_nat 3) with 3%nat in Rt.
  change (Z.to_nat (10 - 1)) with 9%nat in Rt.
  exists tr; split; [exact Ev|]; split; [exact Rt|].
  destruct Rt as [v|v e tr res Lt].
  - splits; try (count_simpl; cbn; lia); try reflexivity.
    + intros H; destruct H; reflexivity.
    + repeat constructor; discriminate.
  - pose proof (loopTrace_counts _ _ _ _ _ _ Lt) as (C1 & C2 & C3 & C4).
    pose proof (count_reconnect_split tr) as C5.
    pose proof (loopTrace_sleeps _ _ _ _ _ _ Lt) as Sl.
    pose proof (loopTrace_error_exhausts _ _ _ _ _ _ Lt) as Ex.
    destruct (loopTrace_scan _ _ _ _ _ _ Lt) as (q & Sc).
    splits; try (count_simpl; cbn; lia).
    + intros H; count_simpl; cbn; apply Ex; exact H.
    + unfold separated; cbn; rewrite Sc; reflexivity.
    + constructor; [discriminate|exact Sl].
Qed.

(** C7. [Init] tries to connect at most 100000 times; each failed attempt
    that is not the last one is followed by one sleep of 200 ms. It returns
    nil at the first attempt that succeeds, with the connection and the
    stub stored in the client, and after 100000 failed attempts it returns
    the error of the last one. *)
Theorem Init_retries_until_connected (s : St) :
  let (err, s') := runState (Init DialContext) s in
  exists errs tr,
    tr = retryTrace (200 * Millisecond) errs err /\
    events s' = events s ++ tr /\
    Z.of_nat (count isDial tr) <= 100000 /\
    match err with
    | None =>
        conn (client s') <> None /\
        grpcClient (client s') = Some (NewIndexNodeClient (conn (client s')))
    | Some _ => Z.of_nat (count isDial tr) = 100000
    end.
Proof.
  destruct (runState (Init DialContext) s) as [err s'] eqn:E.
  apply Init_run in E; destruct E as (errs & Ev & Le & Eq & _ & Cn).
  exists errs, (retryTrace (200 * Millisecond) errs err).
  rewrite count_retryTrace_dial; splits.
  - reflexivity.
  - exact Ev.
  - lia.
  - destruct err as [e|]; [|auto].
    rewrite Eq by discriminate; lia.
Qed.

(** C8. When the first invocation of the caller succeeds, [recall] returns
    its result with a nil error and [reconnect] is not called. In every run
    on a client whose [recallTry] is 3, the caller is invoked at most 4
    times and [reconnect] at most 3 times. *)
Theorem recall_call_bounds (caller : Caller) (s : St) :
  recallTry (client s) = 3 ->
  let (res, s') := runState (recall DialContext caller) s in
  exists tr,
    events s' = events s ++ tr /\
    (forall v, fst (caller (client s) (world s)) = (v, None) ->
               res = (v, None) /\ tr = [EvCall v None] /\
               count isReconnect tr = 0%nat) /\
    (count isCall tr <= 4)%nat /\
    (count isReconnect tr <= 3)%nat.
Proof.
  intros Hn.
  destruct (runState (recall DialContext caller) s) as [res s'] eqn:E.
  apply recall_run in E; destruct E as (tr & Ev & Rt & (tl & First) & _).
  rewrite Hn in Rt; change (Z.to_nat 3) with 3%nat in Rt.
  exists tr; split; [exact Ev|].
  destruct Rt as [v|v e tr res Lt].
  - splits; try (count_simpl; cbn; lia).
    intros v' Hv; rewrite Hv in First; inversion First; subst; auto.
  - pose proof (loopTrace_counts _ _ _ _ _ _ Lt) as (C1 & C2 & _).
    pose proof (count_reconnect_split tr) as C5.
    splits; try (count_simpl; cbn; lia).
    intros v' Hv; rewrite Hv in First; inversion First.
Qed.

(** C9. In [recall] each iteration of the loop calls [reconnect] once, and
    the caller is invoked again only after a reconnect that succeeded: a
    failed reconnect uses up one of the 3 iterations. When the first
    invocation fails and no reconnect succeeds, the caller is invoked once,
    all 3 reconnects fail, and [recall] returns the result value of that
    first invocation with the error of the last reconnect (the error of its
    last dial attempt). *)
Theorem recall_failed_reconnect (caller : Caller) (s : St) :
  recallTry (client s) = 3 ->
  let (res, s') := runState (recall DialContext caller) s in
  exists tr,
    events s' = events s ++ tr /\
    count isCall tr = (1 + count isReconnectOk tr)%nat /\
    (count isReconnectOk tr + count isReconnectErr tr <= 3)%nat /\
    (forall v0 e0,
        fst (caller (client s) (world s)) = (v0, Some e0) ->
        count isReconnectOk tr = 0%nat ->
        count isCall tr = 1%nat /\ count isReconnectErr tr = 3%nat /\
        exists older e,
          tr = EvCall v0 (Some e0) :: older
               ++ [EvDial (Some e); EvReconnect (Some e)] /\
          res = (v0, Some e)).
Proof.
  intros Hn.
  destruct (runState (recall DialContext caller) s) as [res s'] eqn:E.
  apply recall_run in E; destruct E as (tr & Ev & Rt & (tl & First) & _).
  rewrite Hn in Rt; change (Z.to_nat 3) with 3%nat in Rt.
  exists tr; split; [exact Ev|].
  destruct Rt as [v|v e tr res Lt].
  - splits; try (count_simpl; cbn; lia).
    intros v0 e0 Hv; rewrite Hv in First; inversion First.
  - pose proof (loopTrace_counts _ _ _ _ _ _ Lt) as (C1 & C2 & _).
    pose proof (count_reconnect_split tr) as C5.
    splits; try (count_simpl; cbn; lia).
    intros v0 e0 Hv; rewrite Hv in First; inversion First; subst.
    count_simpl; cbn; intros Z0.
    destruct (loopTrace_all_failed _ _ _ _ _ _ Lt) as (A1 & A2 & A3); [lia|].
    splits; try lia.
    destruct A3 as [(A & _)|(older & e' & -> & ->)]; [discriminate|].
    exists older, e'; auto.
Qed.

End Claims.

(** ** Runs on the concrete networks *)
Import ClientExamples.

Example NewClient_client0 :
  NewClient "localhost:21121" (3000 * Millisecond) = (Some client0, None).
Proof. reflexivity. Qed.

Example NewClient_empty_address :
  @NewClient unit EmptyString (3000 * Millisecond) = (None, Some "address is empty"%string).
Proof. reflexivity. Qed.

(** [Init] on a network that accepts the third dial. *)
Example Init_third_dial :
  let (err, s') := runState (Init (dialAfter 2)) st0 in
  err = None /\
  events s' = [EvDial (Some "connection refused"%string);
               EvSleep (200 * Millisecond);
               EvDial (Some "connection refused"%string);
               EvSleep (200 * Millisecond);
               EvDial None] /\
  conn (client s') = Some tt /\
  grpcClient (client s') = Some (NewIndexNodeClient (Some tt)).
Proof. vm_compute; auto. Qed.

(** [recall] when the stub is missing and the network accepts the third
    dial: one reconnect, then the second invocation succeeds. *)
Example recall_after_reconnect :
  let (res, s') := runState (recall (dialAfter 2) rpcNeedsStub) st0 in
  res = ("Healthy"%string, None) /\
  events s' = [EvCall EmptyString (Some "no connection"%string);
               EvDial (Some "connection refused"%string);
               EvSleep (500 * Millisecond);
               EvDial (Some "connection refused"%string);
               EvSleep (500 * Millisecond);
               EvDial None; EvReconnect None;
               EvCall "Healthy"%string None].
Proof. vm_compute; auto. Qed.

(** [recall] when the RPC and every dial fail: the result value of the
    first invocation comes back with the error of the dial. *)
Example recall_network_down :
  let (res, s') := runState (recall dialDown rpcDown) st0 in
  res = (EmptyString, Some "connection refused"%string) /\
  count isCall (events s') = 1%nat /\
  count isReconnect (events s') = 3%nat /\
  count isDial (events s') = 30%nat /\
  count isSleep (events s') = 27%nat.
Proof. vm_compute; auto. Qed.

(** C6, as it is stated, fails on the client of [NewClient] when the RPC
    keeps failing on a network that accepts every dial: the caller is invoked
    4 times, each reconnect succeeds at its first dial, and no sleep, of
    500 ms or other, lies between two consecutive invocations. *)
Lemma recall_interval_counterexample :
  recallTry (client st0) = 3 /\ reconnTry (client st0) = 10 /\
  let tr := events (snd (runState (recall dialUp rpcDown) st0)) in
  tr = [EvCall EmptyString (Some "rpc failed"%string);
        EvDial None; EvReconnect None;
        EvCall EmptyString (Some "rpc failed"%string);
        EvDial None; EvReconnect None;
        EvCall EmptyString (Some "rpc failed"%string);
        EvDial None; EvReconnect None;
        EvCall EmptyString (Some "rpc failed"%string)] /\
  count isCall tr = 4%nat /\
  count isSleep tr = 0%nat /\
  separated (isSleepOf (500 * Millisecond)) tr <> true.
Proof. vm_compute; splits; auto; discriminate. Qed.

Lemma recall_reconnects_between_attempts_witness :
  recallTry (client st0) = 3 /\ reconnTry (client st0) = 10 /\
  let (res, s') := runState (recall (dialAfter 2) rpcNeedsStub) st0 in
  exists tr,
    events s' = events st0 ++ tr /\
    recallTrace 9 3 tr res /\
    (snd res <> None -> count isReconnect tr = 3%nat) /\
    count isCall tr = (1 + count isReconnectOk tr)%nat /\
    (count isCall tr <= 1 + 3)%nat /\
    (count isReconnect tr <= 3)%nat /\
    separated isReconnectOk tr = true /\
    sleepsAre (500 * Millisecond) tr /\
    (count isDial tr <= 10 * count isReconnect tr)%nat /\
    (count isSleep tr <= 9 * count isReconnect tr)%nat.
Proof.
  split; [reflexivity|split; [reflexivity|]].
  apply (recall_reconnects_between_attempts (dialAfter 2) rpcNeedsStub st0);
    reflexivity.
Defined.

Lemma recall_call_bounds_witness :
  recallTry (client st0) = 3 /\
  let (res, s') := runState (recall dialUp rpcUp) st0 in
  exists tr,
    events s' = events st0 ++ tr /\
    (forall v, fst (rpcUp (client st0) (world st0)) = (v, None) ->
               res = (v, None) /\ tr = [EvCall v None] /\
               count isReconnect tr = 0%nat) /\
    (count isCall tr <= 4)%nat /\
    (count isReconnect tr <= 3)%nat.
Proof.
  split; [reflexivity|].
  apply (recall_call_bounds dialUp rpcUp st0); reflexivity.
Defined.

Lemma recall_failed_reconnect_witness :
  recallTry (client st0) = 3 /\
  let (res, s') := runState (recall dialDown rpcDown) st0 in
  exists tr,
    events s' = events st0 ++ tr /\
    count isCall tr = (1 + count isReconnectOk tr)%nat /\
    (count isReconnectOk tr + count isReconnectErr tr <= 3)%nat /\
    (forall v0 e0,
        fst (rpcDown (client st0) (world st0)) = (v0, Some e0) ->
        count isReconnectOk tr = 0%nat ->
        count isCall tr = 1%nat /\ count isReconnectErr tr = 3%nat /\
        exists older e,
          tr = EvCall v0 (Some e0) :: older
               ++ [EvDial (Some e); EvReconnect (Some e)] /\
          res = (v0, Some e)).
Proof.
  split; [reflexivity|].
  apply (recall_failed_reconnect dialDown rpcDown st0); reflexivity.
Defined.

End ClientFacts.

Module CodecFacts.
Import querycoord.

Lemma byteOfN_to_N (n : N) : (n < 256)%N -> Byte.to_N (byteOfN n) = n.
Proof.
  intros H; unfold byteOfN.
  destruct (Byte.of_N n) as [b|] eqn:E.
  - apply Byte.to_of_N; exact E.
  - apply Byte.of_N_None_iff in E; lia.
Qed.

Lemma put_varint_unfold (n : N) :
  put_varint n =
  if (n <? 128)%N then [byteOfN n]
  else byteOfN (n mod 128 + 128) :: put_varint (n / 128).
Proof.
  funelim (put_varint n);
    match goal with E : (_ <? _)%N = _ |- _ => rewrite E end; reflexivity.
Qed.

Lemma get_put_varint : inverts get_varint put_varint (fun n => n).
Proof.
  intros n; induction n as [n IH] using (well_founded_induction N.lt_wf_0).
  intros rest; rewrite put_varint_unfold.
  destruct (N.ltb_spec n 128) as [Lt|Ge].
  - cbn; rewrite byteOfN_to_N by lia.
    rewrite (proj2 (N.ltb_lt n 128) Lt); reflexivity.
  - assert (M : (n mod 128 < 128)%N) by (apply N.mod_lt; discriminate).
    assert (D : n = (128 * (n / 128) + n mod 128)%N)
      by (apply N.div_mod; discriminate).
    specialize (IH (n / 128)%N).
    revert IH M D; generalize (n mod 128)%N (n / 128)%N; intros m q IH M D.
    cbn [app get_varint]; rewrite byteOfN_to_N by lia.
    rewrite (proj2 (N.ltb_ge (m + 128) 128)) by lia.
    rewrite IH by lia; cbn [bind ret Monad_option].
    do 2 f_equal; lia.
Qed.

Lemma to_N_lt_pow (u : Z) (k : N) :
  0 <= u -> (Z.to_N u <? 2 ^ k)%N = (u <? 2 ^ Z.of_N k).
Proof.
  intros H.
  destruct (N.ltb_spec (Z.to_N u) (2 ^ k)) as [L|G];
    [apply N2Z.inj_lt in L|apply N2Z.inj_le in G];
    rewrite N2Z.inj_pow, Z2N.id in * by exact H;
    change (Z.of_N 2) with 2 in *;
    destruct (Z.ltb_spec u (2 ^ Z.of_N k)); auto; exfalso;
    generalize dependent u; generalize (2 ^ Z.of_N k); intros; lia.
Qed.

Lemma get_put_uint64 : inverts get_uint64 put_uint64 wrapUint64.
Proof.
  intros z rest; unfold get_uint64, put_uint64, wrapUint64.
  rewrite get_put_varint; cbn [bind ret Monad_option].
  pose proof (Z.mod_pos_bound z (2 ^ 64) eq_refl) as [B1 B2].
  rewrite to_N_lt_pow, Z2N.id by exact B1.
  change (Z.of_N 64) with 64.
  rewrite (proj2 (Z.ltb_lt _ _) B2); reflexivity.
Qed.

Lemma get_put_int64 : inverts get_int64 put_int64 wrapInt64.
Proof.
  intros z rest; unfold get_int64, put_int64, wrapInt64.
  rewrite get_put_varint; cbn [bind ret Monad_option].
  pose proof (Z.mod_pos_bound z (2 ^ 64) eq_refl) as [B1 B2].
  rewrite !to_N_lt_pow, Z2N.id by exact B1.
  change (Z.of_N 64) with 64; change (Z.of_N 63) with 63.
  rewrite (proj2 (Z.ltb_lt _ _) B2).
  destruct (z mod 2 ^ 64 <? 2 ^ 63); reflexivity.
Qed.

Lemma get_put_bytes : inverts get_bytes put_bytes (fun s => s).
Proof.
  intros s rest; unfold get_bytes, put_bytes.
  rewrite <- app_assoc, get_put_varint; cbn [bind ret Monad_option].
  rewrite Nat2N.id.
  destruct (N.leb_spec (N.of_nat (List.length s))
                       (N.of_nat (List.length (s ++ rest)))) as [_|G].
  - rewrite firstn_app, skipn_app, Nat.sub_diag, firstn_all, skipn_all.
    cbn; rewrite app_nil_r; reflexivity.
  - rewrite length_app in G; lia.
Qed.

Lemma get_many_put {A} (get : Parser A) put norm :
  inverts get put norm ->
  forall xs rest,
    get_many get (List.length xs) (concat (map put xs) ++ rest) =
    Some (map norm xs, rest).
Proof.
  intros Inv xs; induction xs as [|x xs IH]; intros rest; cbn; [reflexivity|].
  rewrite <- app_assoc, Inv; cbn; rewrite IH; reflexivity.
Qed.

Lemma get_put_list {A} (get : Parser A) put norm :
  inverts get put norm ->
  inverts (get_list get) (put_list put) (map norm).
Proof.
  intros Inv xs rest; unfold get_list, put_list.
  rewrite <- app_assoc, get_put_varint; cbn [bind ret Monad_option].
  rewrite Nat2N.id; apply get_many_put; exact Inv.
Qed.

Lemma get_put_request : inverts get_request put_request wrapRequest.
Proof.
  intros r rest; unfold get_request, put_request.
  rewrite <- !app_assoc, get_put_uint64; cbn [bind ret Monad_option].
  rewrite get_put_int64; cbn [bind ret Monad_option].
  rewrite get_put_int64; cbn [bind ret Monad_option].
  rewrite (get_put_list _ _ _ get_put_int64); cbn [bind ret Monad_option].
  rewrite (get_put_list _ _ _ get_put_bytes); cbn [bind ret Monad_option].
  rewrite map_id; reflexivity.
Qed.

Lemma parse_put_request (r : Request) :
  parse_request (put_request r) = Some (wrapRequest r).
Proof.
  unfold parse_request.
  rewrite <- (app_nil_r (put_request r)), get_put_request; reflexivity.
Qed.

(** *** The parsers accept the wire format, and nothing else *)

Ltac split_all :=
  repeat match goal with |- _ /\ _ => split end.

Lemma get_varint_sound bs :
  forall n rest,
    get_varint bs = Some (n, rest) ->
    exists enc, isVarint n enc /\ bs = enc ++ rest.
Proof.
  induction bs as [|b bs IH]; intros n rest; cbn [get_varint]; [discriminate|].
  destruct (N.ltb_spec (Byte.to_N b) 128) as [L|G].
  - intros E; inversion E; subst.
    exists [b]; split; [constructor; exact L|reflexivity].
  - destruct (get_varint bs) as [[hi rest']|] eqn:E1;
      cbn [bind ret Monad_option]; [|discriminate].
    intros E; inversion E; subst.
    destruct (IH _ _ eq_refl) as (enc & V & ->).
    exists (b :: enc); split; [constructor; assumption|reflexivity].
Qed.

Lemma get_varint_complete n enc :
  isVarint n enc -> forall rest, get_varint (enc ++ rest) = Some (n, rest).
Proof.
  induction 1 as [b L|b hi enc G V IH]; intros rest; cbn [app get_varint].
  - rewrite (proj2 (N.ltb_lt _ _) L); reflexivity.
  - rewrite (proj2 (N.ltb_ge _ _) G), IH; reflexivity.
Qed.

Lemma accepts_varint : accepts get_varint isVarint.
Proof.
  intros bs n rest; split.
  - apply get_varint_sound.
  - intros (enc & V & ->); apply get_varint_complete; exact V.
Qed.

Lemma of_N_lt_pow (n k : N) : (n < 2 ^ k)%N <-> Z.of_N n < 2 ^ Z.of_N k.
Proof.
  rewrite N2Z.inj_lt, N2Z.inj_pow; reflexivity.
Qed.

Lemma accepts_uint64 : accepts get_uint64 isUint64.
Proof.
  intros bs z rest; unfold get_uint64, isUint64; split.
  - destruct (get_varint bs) as [[n rest']|] eqn:E;
      cbn [bind ret Monad_option]; [|discriminate].
    apply get_varint_sound in E; destruct E as (enc & V & ->).
    destruct (N.ltb_spec n (2 ^ 64)) as [L|G]; [|discriminate].
    intros E; inversion E; subst.
    apply of_N_lt_pow in L; change (Z.of_N 64) with 64 in L.
    exists enc; rewrite N2Z.id; repeat split; auto.
    apply N2Z.is_nonneg.
  - intros (enc & ((R1 & R2) & V) & ->).
    rewrite (get_varint_complete _ _ V); cbn [bind ret Monad_option].
    rewrite to_N_lt_pow by exact R1; change (Z.of_N 64) with 64.
    rewrite (proj2 (Z.ltb_lt _ _) R2), Z2N.id by exact R1; reflexivity.
Qed.

(** The 64-bit pattern of an int64. *)
Lemma mod64_int64 (z : Z) :
  - 2 ^ 63 <= z < 2 ^ 63 ->
  (0 <= z /\ z mod 2 ^ 64 = z) \/ (z < 0 /\ z mod 2 ^ 64 = z + 2 ^ 64).
Proof.
  intros [R1 R2]; destruct (Z.lt_ge_cases z 0) as [Neg|Pos]; [right|left];
    split; auto.
  - replace z with (z + 2 ^ 64 + (-1) * 2 ^ 64) at 1 by ring.
    rewrite Z_mod_plus_full; apply Z.mod_small.
    change (2 ^ 63) with 9223372036854775808 in *.
    change (2 ^ 64) with 18446744073709551616; lia.
  - apply Z.mod_small.
    change (2 ^ 63) with 9223372036854775808 in *.
    change (2 ^ 64) with 18446744073709551616; lia.
Qed.

Lemma accepts_int64 : accepts get_int64 isInt64.
Proof.
  intros bs z rest; unfold get_int64, isInt64; split.
  - destruct (get_varint bs) as [[n rest']|] eqn:E;
      cbn [bind ret Monad_option]; [|discriminate].
    apply get_varint_sound in E; destruct E as (enc & V & ->).
    pose proof (N2Z.is_nonneg n) as P.
    destruct (N.ltb_spec n (2 ^ 63)) as [L|G].
    + intros E; inversion E; subst.
      apply of_N_lt_pow in L; change (Z.of_N 63) with 63 in L.
      assert (R : - 2 ^ 63 <= Z.of_N n < 2 ^ 63)
        by (change (2 ^ 63) with 9223372036854775808 in *; lia).
      exists enc; repeat split; try apply R.
      destruct (mod64_int64 _ R) as [(_ & ->)|(Neg & _)]; [|lia].
      rewrite N2Z.id; exact V.
    + destruct (N.ltb_spec n (2 ^ 64)) as [L|G']; [|discriminate].
      intros E; injection E as Ez Er; subst z rest'.
      change (Z.pow_pos 2 64) with (2 ^ 64).
      apply of_N_lt_pow in L; change (Z.of_N 64) with 64 in L.
      apply N2Z.inj_le in G; rewrite N2Z.inj_pow in G.
      change (Z.of_N 2 ^ Z.of_N 63) with (2 ^ 63) in G.
      assert (R : - 2 ^ 63 <= Z.of_N n - 2 ^ 64 < 2 ^ 63).
      { change (2 ^ 63) with 9223372036854775808 in *.
        change (2 ^ 64) with 18446744073709551616 in *; lia. }
      exists enc; repeat split; try apply R.
      destruct (mod64_int64 _ R) as [(Pos & _)|(_ & ->)].
      * change (2 ^ 64) with 18446744073709551616 in *; lia.
      * replace (Z.of_N n - 2 ^ 64 + 2 ^ 64) with (Z.of_N n) by ring.
        rewrite N2Z.id; exact V.
  - intros (enc & (R & V) & ->).
    rewrite (get_varint_complete _ _ V); cbn [bind ret Monad_option].
    pose proof (Z.mod_pos_bound z (2 ^ 64) eq_refl) as [B1 B2].
    rewrite !to_N_lt_pow, Z2N.id by exact B1.
    change (Z.of_N 64) with 64; change (Z.of_N 63) with 63.
    rewrite (proj2 (Z.ltb_lt _ _) B2).
    destruct (mod64_int64 _ R) as [(Pos & ->)|(Neg & ->)].
    + rewrite (proj2 (Z.ltb_lt _ _) (proj2 R)); reflexivity.
    + rewrite (proj2 (Z.ltb_ge _ _)).
      * do 2 f_equal; ring.
      * destruct R as [R1 R2].
        change (2 ^ 63) with 9223372036854775808 in *.
        change (2 ^ 64) with 18446744073709551616; lia.
Qed.

Lemma accepts_bytes : accepts get_bytes isBytes.
Proof.
  intros bs s rest; unfold get_bytes, isBytes; split.
  - destruct (get_varint bs) as [[n rest']|] eqn:E;
      cbn [bind ret Monad_option]; [|discriminate].
    apply get_varint_sound in E; destruct E as (enc & V & ->).
    destruct (N.leb_spec n (N.of_nat (List.length rest'))) as [L|G];
      [|discriminate].
    intros E; inversion E; subst.
    exists (enc ++ firstn (N.to_nat n) rest'); split.
    + exists enc; split; [|reflexivity].
      rewrite length_firstn, Nat.min_l, N2Nat.id by lia; exact V.
    + rewrite <- app_assoc, firstn_skipn; reflexivity.
  - intros (enc & (len & V & ->) & ->).
    rewrite <- app_assoc, (get_varint_complete _ _ V);
      cbn [bind ret Monad_option].
    rewrite Nat2N.id.
    destruct (N.leb_spec (N.of_nat (List.length s))
                         (N.of_nat (List.length (s ++ rest)))) as [_|G].
    + rewrite firstn_app, skipn_app, Nat.sub_diag, firstn_all, skipn_all.
      cbn; rewrite app_nil_r; reflexivity.
    + rewrite length_app in G; lia.
Qed.

Lemma accepts_many {A} (get : Parser A) G :
  accepts get G ->
  forall n bs xs rest,
    get_many get n bs = Some (xs, rest) <->
    exists es, isMany G xs es /\ List.length xs = n /\ bs = es ++ rest.
Proof.
  intros Acc n; induction n as [|n IH]; intros bs xs rest; cbn [get_many].
  - split.
    + intros E; inversion E; subst; exists []; repeat split; constructor.
    + intros (es & M & L & ->); destruct M; [reflexivity|discriminate].
  - split.
    + destruct (get bs) as [[x r1]|] eqn:E1; cbn [bind ret Monad_option];
        [|discriminate].
      destruct (get_many get n r1) as [[xs' r2]|] eqn:E2;
        cbn [bind ret Monad_option]; [|discriminate].
      intros E; inversion E; subst.
      apply Acc in E1; destruct E1 as (e & Ge & ->).
      apply IH in E2; destruct E2 as (es & M & L & ->).
      exists (e ++ es); repeat split.
      * constructor; assumption.
      * cbn; rewrite L; reflexivity.
      * rewrite app_assoc; reflexivity.
    + intros (es & M & L & ->); destruct M as [|x xs e es Ge M];
        [discriminate|].
      rewrite <- app_assoc.
      rewrite (proj2 (Acc _ _ _)) by (exists e; split; [exact Ge|reflexivity]).
      cbn [bind ret Monad_option].
      rewrite (proj2 (IH _ _ _))
        by (exists es; repeat split; [exact M|cbn in L; congruence]).
      reflexivity.
Qed.

Lemma accepts_list {A} (get : Parser A) G :
  accepts get G -> accepts (get_list get) (isList G).
Proof.
  intros Acc bs xs rest; unfold get_list, isList; split.
  - destruct (get_varint bs) as [[n r1]|] eqn:E1;
      cbn [bind ret Monad_option]; [|discriminate].
    apply get_varint_sound in E1; destruct E1 as (len & V & ->).
    intros E; apply (accepts_many get G Acc) in E.
    destruct E as (es & M & L & ->).
    exists (len ++ es); split; [|rewrite app_assoc; reflexivity].
    exists len, es; rewrite L, N2Nat.id; auto.
  - intros (enc & (len & es & V & M & ->) & ->).
    rewrite <- app_assoc, (get_varint_complete _ _ V);
      cbn [bind ret Monad_option].
    apply (accepts_many get G Acc).
    exists es; rewrite Nat2N.id; auto.
Qed.

Lemma accepts_request : accepts get_request isRequest.
Proof.
  pose proof accepts_uint64 as A1; pose proof accepts_int64 as A2.
  pose proof (accepts_list _ _ accepts_int64) as A4.
  pose proof (accepts_list _ _ accepts_bytes) as A5.
  intros bs r rest; unfold get_request, isRequest; split.
  - destruct (get_uint64 bs) as [[ts b1]|] eqn:E1;
      cbn [bind ret Monad_option]; [|discriminate].
    destruct (get_int64 b1) as [[node b2]|] eqn:E2;
      cbn [bind ret Monad_option]; [|discriminate].
    destruct (get_int64 b2) as [[coll b3]|] eqn:E3;
      cbn [bind ret Monad_option]; [|discriminate].
    destruct (get_list get_int64 b3) as [[segs b4]|] eqn:E4;
      cbn [bind ret Monad_option]; [|discriminate].
    destruct (get_list get_bytes b4) as [[chans b5]|] eqn:E5;
      cbn [bind ret Monad_option]; [|discriminate].
    intros E; inversion E; subst; cbn.
    apply A1 in E1; destruct E1 as (e1 & G1 & ->).
    apply A2 in E2; destruct E2 as (e2 & G2 & ->).
    apply A2 in E3; destruct E3 as (e3 & G3 & ->).
    apply A4 in E4; destruct E4 as (e4 & G4 & ->).
    apply A5 in E5; destruct E5 as (e5 & G5 & ->).
    exists (e1 ++ e2 ++ e3 ++ e4 ++ e5); split.
    + exists e1, e2, e3, e4, e5; split_all; auto.
    + rewrite <- !app_assoc; reflexivity.
  - intros (enc & (e1 & e2 & e3 & e4 & e5 & G1 & G2 & G3 & G4 & G5 & ->) & ->).
    rewrite <- !app_assoc.
    rewrite (proj2 (A1 _ _ _)) by eauto; cbn [bind ret Monad_option].
    rewrite (proj2 (A2 _ _ _)) by eauto; cbn [bind ret Monad_option].
    rewrite (proj2 (A2 _ _ _)) by eauto; cbn [bind ret Monad_option].
    rewrite (proj2 (A4 _ _ _)) by eauto; cbn [bind ret Monad_option].
    rewrite (proj2 (A5 _ _ _)) by eauto; cbn [bind ret Monad_option].
    destruct r; reflexivity.
Qed.

Lemma parse_request_accepts (payload : list byte) (r : Request) :
  parse_request payload = Some r <-> isRequest r payload.
Proof.
  unfold parse_request; split.
  - destruct (get_request payload) as [[r' rest]|] eqn:E; [|discriminate].
    destruct rest; [|discriminate].
    intros H; inversion H; subst.
    apply accepts_request in E; destruct E as (enc & G & ->).
    rewrite app_nil_r; exact G.
  - intros G.
    rewrite (proj2 (accepts_request payload r []))
      by (exists payload; rewrite app_nil_r; auto).
    reflexivity.
Qed.

Lemma hasTag_get (tag : N) (blob payload : list byte) :
  hasTag tag blob payload <-> get_varint blob = Some (tag, payload).
Proof. symmetry; apply accepts_varint. Qed.

Lemma isBlob_parts (tag : N) (r : Request) (blob : list byte) :
  isBlob tag r blob <->
  exists payload,
    get_varint blob = Some (tag, payload) /\ parse_request payload = Some r.
Proof.
  unfold isBlob; split.
  - intros (enc & payload & V & R & ->); exists payload; split.
    + apply hasTag_get; exists enc; auto.
    + apply parse_request_accepts; exact R.
  - intros (payload & G & P).
    apply hasTag_get in G; destruct G as (enc & V & ->).
    apply parse_request_accepts in P; exists enc, payload; auto.
Qed.

(** ** The claims about the task codec *)
Section Claims.
Variable code : MsgType -> N.

Lemma allMsgTypes_complete (ty : MsgType) : In ty allMsgTypes.
Proof. destruct ty; cbn; tauto. Qed.

Lemma typeOfTag_sound tag ty : typeOfTag code tag = Some ty -> code ty = tag.
Proof.
  unfold typeOfTag; intros H; apply find_some in H.
  apply N.eqb_eq; exact (proj2 H).
Qed.

Lemma typeOfTag_none tag :
  typeOfTag code tag = None <-> forall ty, code ty <> tag.
Proof.
  unfold typeOfTag; split.
  - intros H ty E.
    pose proof (find_none _ _ H ty (allMsgTypes_complete ty)) as F.
    apply N.eqb_neq in F; exact (F E).
  - intros H; destruct (find _ _) as [ty|] eqn:E; [|reflexivity].
    apply typeOfTag_sound in E; destruct (H ty E).
Qed.

Lemma typeOfTag_code (ty : MsgType) :
  (forall a b, code a = code b -> a = b) ->
  typeOfTag code (code ty) = Some ty.
Proof.
  intros Inj; destruct (typeOfTag code (code ty)) as [ty'|] eqn:E.
  - apply typeOfTag_sound, Inj in E; congruence.
  - destruct (proj1 (typeOfTag_none _) E ty eq_refl).
Qed.

(** C1. Whatever the variant of a task, [unmarshalTask] applied to a fresh
    id and to the bytes [marshal] produced for the task succeeds, and the
    task it returns has the message type of the original one (and the
    fresh id, the undefined state, and the request as its 64-bit fields
    read back). The numbering of the variants is any one that gives them
    distinct numbers. *)
Theorem unmarshal_marshal_msgType :
  (forall a b, code a = code b -> a = b) ->
  forall (t : Task) (id : Z),
  exists t',
    unmarshalTask code id (marshal code t) = inl t' /\
    msgType t' = msgType t /\
    taskID t' = id /\ state t' = taskUndefined /\
    request t' = wrapRequest (request t).
Proof.
  intros Inj t id; unfold unmarshalTask, marshal.
  rewrite get_put_varint, (typeOfTag_code _ Inj), parse_put_request.
  eexists; repeat split.
Qed.

(** C4. [unmarshalTask] has three outcomes, told apart by the wire format
    alone. It returns a task exactly when the blob is the varint of the
    number of a variant followed by an encoding of a request, and the task
    is then the one with the given id, that variant, that request and the
    undefined state. It returns [ErrUnknownTaskType] exactly when the blob
    starts with a varint whose value is the number of no variant. It
    returns [ErrCorruptTask] exactly when the bytes are malformed: the blob
    does not start with a varint, or it starts with the number of a variant
    and what follows is the encoding of no request. The numbering of the
    variants is any one that gives them distinct numbers. *)
Theorem unmarshalTask_outcomes :
  (forall a b, code a = code b -> a = b) ->
  forall (id : Z) (blob : list byte),
    ((exists t, unmarshalTask code id blob = inl t) \/
     unmarshalTask code id blob = inr ErrUnknownTaskType \/
     unmarshalTask code id blob = inr ErrCorruptTask) /\
    (forall t,
        unmarshalTask code id blob = inl t <->
        taskID t = id /\ state t = taskUndefined /\
        isBlob (code (msgType t)) (request t) blob) /\
    (unmarshalTask code id blob = inr ErrUnknownTaskType <->
     exists tag payload,
       hasTag tag blob payload /\ forall ty, code ty <> tag) /\
    (unmarshalTask code id blob = inr ErrCorruptTask <->
     (forall tag payload, ~ hasTag tag blob payload) \/
     (exists ty payload,
         hasTag (code ty) blob payload /\ forall r, ~ isRequest r payload)).
Proof.
  intros Inj id blob; unfold unmarshalTask.
  destruct (get_varint blob) as [[tag payload]|] eqn:Ev.
  - assert (Uniq : forall tag' payload',
               hasTag tag' blob payload' -> tag' = tag /\ payload' = payload).
    { intros tag' payload' H; apply hasTag_get in H.
      rewrite Ev in H; inversion H; auto. }
    assert (H0 : hasTag tag blob payload) by (apply hasTag_get; exact Ev).
    destruct (typeOfTag code tag) as [ty|] eqn:Et.
    + pose proof (typeOfTag_sound _ _ Et) as Hc.
      destruct (parse_request payload) as [r|] eqn:Ep.
      * split_all; [left; eauto| | |].
        -- intros t; split.
           ++ intros E; inversion E; subst; cbn; split_all; auto.
              apply isBlob_parts; exists payload; auto.
           ++ intros (I & S & B); apply isBlob_parts in B.
              destruct B as (payload' & G & P).
              rewrite Ev in G; injection G as Etag Epay; subst payload'.
              assert (Ety : ty = msgType t).
              { rewrite Etag, (typeOfTag_code _ Inj) in Et.
                inversion Et; reflexivity. }
              destruct t; cbn in *; congruence.
        -- split; [discriminate|].
           intros (tag' & payload' & H & Hn).
           destruct (Uniq _ _ H) as (-> & _); destruct (Hn ty Hc).
        -- split; [discriminate|].
           intros [Hn|(ty' & payload' & H & Hn)]; [destruct (Hn _ _ H0)|].
           destruct (Uniq _ _ H) as (_ & ->).
           apply parse_request_accepts in Ep; destruct (Hn r Ep).
      * split_all; [right; right; reflexivity| | |].
        -- intros t; split; [discriminate|].
           intros (_ & _ & B); apply isBlob_parts in B.
           destruct B as (payload' & G & P).
           rewrite Ev in G; inversion G; subst; congruence.
        -- split; [discriminate|].
           intros (tag' & payload' & H & Hn).
           destruct (Uniq _ _ H) as (-> & _); destruct (Hn ty Hc).
        -- split; [intros _|reflexivity].
           right; exists ty, payload; rewrite Hc; split; [exact H0|].
           intros r R; apply parse_request_accepts in R; congruence.
    + pose proof (proj1 (typeOfTag_none tag) Et) as Hn.
      split_all; [right; left; reflexivity| | |].
      * intros t; split; [discriminate|].
        intros (_ & _ & B); apply isBlob_parts in B.
        destruct B as (payload' & G & P).
        rewrite Ev in G; inversion G; subst.
        destruct (Hn (msgType t) eq_refl).
      * split; [intros _|reflexivity].
        exists tag, payload; auto.
      * split; [discriminate|].
        intros [Hx|(ty' & payload' & H & _)]; [destruct (Hx _ _ H0)|].
        destruct (Uniq _ _ H) as (E & _); destruct (Hn ty' E).
  - assert (No : forall tag payload, ~ hasTag tag blob payload).
    { intros tag payload H; apply hasTag_get in H; congruence. }
    split_all; [right; right; reflexivity| | |].
    + intros t; split; [discriminate|].
      intros (_ & _ & B); apply isBlob_parts in B.
      destruct B as (payload' & G & P); congruence.
    + split; [discriminate|].
      intros (tag & payload & H & _); destruct (No _ _ H).
    + split; [intros _; left; exact No|reflexivity].
Qed.

End Claims.

Lemma exampleCode_inj (a b : MsgType) : exampleCode a = exampleCode b -> a = b.
Proof. destruct a, b; cbn; intros H; try reflexivity; discriminate. Qed.

Example marshal_exampleTask :
  marshal exampleCode exampleTask =
  [xfc; x01; x02; xff; xff; xff; xff; xff; xff; xff; xff; xff; x01; x07; x03;
   x01; xac; x02; xfb; xff; xff; xff; xff; xff; xff; xff; xff; x01; x02; x03;
   "d"; "m"; "l"; x00]%byte.
Proof. reflexivity. Qed.

Example unmarshal_exampleTask :
  unmarshalTask exampleCode 1004 (marshal exampleCode exampleTask) =
  inl {| taskID := 1004; msgType := MsgType_LoadSegments;
         state := taskUndefined; request := request exampleTask |}.
Proof. reflexivity. Qed.

(** Tag 5 is the number of no variant. *)
Example unmarshal_unknown_tag :
  unmarshalTask exampleCode 1004 [x05; x00; x00; x00; x00; x00] =
  inr ErrUnknownTaskType.
Proof. reflexivity. Qed.

(** Tag 106 with a request cut short, and with a byte too many. *)
Example unmarshal_truncated :
  unmarshalTask exampleCode 1004 [x6a; x00; x00] = inr ErrCorruptTask.
Proof. reflexivity. Qed.

Example unmarshal_trailing_byte :
  unmarshalTask exampleCode 1004 [x6a; x00; x00; x00; x00; x00; x00] =
  inr ErrCorruptTask.
Proof. reflexivity. Qed.

(** A blob that does not start with a varint: its only byte announces
    another one. *)
Example unmarshal_unfinished_tag :
  unmarshalTask exampleCode 1004 [xfc] = inr ErrCorruptTask.
Proof. reflexivity. Qed.

Lemma unmarshalTask_outcomes_witness :
  (forall a b, exampleCode a = exampleCode b -> a = b) /\
  ((exists t,
       unmarshalTask exampleCode 1004 (marshal exampleCode exampleTask) = inl t) \/
   unmarshalTask exampleCode 1004 (marshal exampleCode exampleTask) =
   inr ErrUnknownTaskType \/
   unmarshalTask exampleCode 1004 (marshal exampleCode exampleTask) =
   inr ErrCorruptTask) /\
  (forall t,
      unmarshalTask exampleCode 1004 (marshal exampleCode exampleTask) = inl t <->
      taskID t = 1004 /\ state t = taskUndefined /\
      isBlob (exampleCode (msgType t)) (request t)
             (marshal exampleCode exampleTask)) /\
  (unmarshalTask exampleCode 1004 (marshal exampleCode exampleTask) =
   inr ErrUnknownTaskType <->
   exists tag payload,
     hasTag tag (marshal exampleCode exampleTask) payload /\
     forall ty, exampleCode ty <> tag) /\
  (unmarshalTask exampleCode 1004 (marshal exampleCode exampleTask) =
   inr ErrCorruptTask <->
   (forall tag payload, ~ hasTag tag (marshal exampleCode exampleTask) payload) \/
   (exists ty payload,
       hasTag (exampleCode ty) (marshal exampleCode exampleTask) payload /\
       forall r, ~ isRequest r payload)).
Proof.
  split; [exact exampleCode_inj|].
  apply (unmarshalTask_outcomes exampleCode exampleCode_inj 1004
                                (marshal exampleCode exampleTask)).
Defined.

Lemma unmarshal_marshal_msgType_witness :
  (forall a b, exampleCode a = exampleCode b -> a = b) /\
  exists t',
    unmarshalTask exampleCode 1004 (marshal exampleCode exampleTask) = inl t' /\
    msgType t' = msgType exampleTask /\
    taskID t' = 1004 /\ state t' = taskUndefined /\
    request t' = wrapRequest (request exampleTask).
Proof.
  split; [exact exampleCode_inj|].
  apply (unmarshal_marshal_msgType exampleCode exampleCode_inj exampleTask 1004).
Defined.

End CodecFacts.

(** * Further properties of the index-node client *)
Module ClientMore.
Import grpcindexnodeclient clientrpc ClientFacts.

Section Facts.
Context {World Conn Ret : Type}.
Variable DialContext : string -> Duration -> World -> (Conn + error) * World.

Local Abbreviation St := (St World Conn Ret).
Local Abbreviation Caller := (@Caller World Conn Ret).

(** *** What the methods do to the client *)

Lemma connectGrpcFunc_client (s s' : St) r :
  runState (connectGrpcFunc DialContext) s = (r, s') ->
  grpcClient (client s') = grpcClient (client s) /\
  (r <> None -> client s' = client s) /\
  (r = None -> conn (client s') <> None).
Proof.
  unfold connectGrpcFunc; cbn.
  destruct (DialContext _ _ _) as [[cn | e] w]; cbn;
    intros E; inversion E; subst; cbn; splits; congruence.
Qed.

Lemma retryLoop_client more d (s s' : St) r :
  runState (retryLoop more d (connectGrpcFunc DialContext)) s = (r, s') ->
  grpcClient (client s') = grpcClient (client s) /\
  (r <> None -> client s' = client s) /\
  (r = None -> conn (client s') <> None).
Proof.
  revert s; induction more as [|more IH]; intros s; rewrite retryLoop_unfold;
    destruct (runState (connectGrpcFunc DialContext) s) as [r1 s1] eqn:E1;
    apply connectGrpcFunc_client in E1; destruct E1 as (G & F & C).
  - destruct r1 as [e|]; intros E; inversion E; subst; splits; auto.
  - destruct r1 as [e|].
    + intros E; apply IH in E; destruct E as (G' & F' & C').
      change (client (addEvent (EvSleep d) s1)) with (client s1) in *.
      rewrite F in * by discriminate; auto.
    + intros E; inversion E; subst; splits; auto.
Qed.

Lemma Init_client (s s' : St) r :
  runState (Init DialContext) s = (r, s') ->
  (r <> None -> client s' = client s) /\
  (r = None ->
   conn (client s') <> None /\
   grpcClient (client s') = Some (NewIndexNodeClient (conn (client s')))).
Proof.
  unfold Init, Retry.
  change (runState (bind ?c ?f) s)
    with (let (v, s0) := runState c s in runState (f v) s0).
  destruct (runState (retryLoop _ _ _) s) as [r1 s1] eqn:E1.
  apply retryLoop_client in E1; destruct E1 as (G & F & C).
  destruct r1 as [e|]; cbn; intros E; inversion E; subst; clear E;
    splits; auto; try discriminate; try congruence.
Qed.

Lemma reconnect_client (s s' : St) r :
  runState (reconnect DialContext) s = (r, s') ->
  (r <> None -> client s' = client s) /\
  (r = None ->
   conn (client s') <> None /\
   grpcClient (client s') = Some (NewIndexNodeClient (conn (client s')))).
Proof.
  unfold reconnect, Retry.
  change (runState (bind get ?f) s) with (runState (f s) s); cbn beta.
  change (runState (bind ?c ?f) s)
    with (let (v, s0) := runState c s in runState (f v) s0).
  destruct (runState (retryLoop _ _ _) s) as [r1 s1] eqn:E1.
  apply retryLoop_client in E1; destruct E1 as (G & F & C).
  destruct r1 as [e|]; cbn; intros E; inversion E; subst; clear E;
    splits; auto; try discriminate; try congruence.
Qed.

(** A property of the client that [reconnect] keeps is kept by [recall]. *)
Lemma recallLoop_keeps (P : Client Conn -> Prop) :
  (forall (s : St) r (s' : St),
      runState (reconnect DialContext) s = (r, s') ->
      P (client s) -> P (client s')) ->
  forall n (caller : Caller) ret0 err0 (s s' : St) res,
    runState (recallLoop DialContext n caller ret0 err0) s = (res, s') ->
    P (client s) -> P (client s').
Proof.
  intros HP n caller; induction n as [|n IH]; intros ret0 err0 s s' res.
  - cbn; intros E; inversion E; subst; auto.
  - rewrite recallLoop_unfold.
    destruct (runState (reconnect DialContext) s) as [err s1] eqn:E1.
    intros E Ps; apply HP in E1; [|exact Ps].
    destruct err as [e|]; [eapply IH; eauto|].
    destruct (runState (invoke caller) s1) as [r s2] eqn:E2.
    apply invoke_run in E2; destruct E2 as (_ & _ & C2).
    rewrite <- C2 in E1.
    destruct (snd r); [eapply IH; eauto|].
    inversion E; subst; exact E1.
Qed.

Lemma recall_keeps (P : Client Conn -> Prop) :
  (forall (s : St) r (s' : St),
      runState (reconnect DialContext) s = (r, s') ->
      P (client s) -> P (client s')) ->
  forall (caller : Caller) (s s' : St) res,
    runState (recall DialContext caller) s = (res, s') ->
    P (client s) -> P (client s').
Proof.
  intros HP caller s s' res; unfold recall.
  change (runState (bind ?c ?f) s)
    with (let (v, s0) := runState c s in runState (f v) s0).
  destruct (runState (invoke caller) s) as [r s1] eqn:E1.
  apply invoke_run in E1; destruct E1 as (_ & _ & C1).
  destruct (snd r).
  - change (runState (bind get ?f) s1) with (runState (f s1) s1); cbn beta.
    intros E Ps; rewrite <- C1 in Ps.
    eapply recallLoop_keeps; eauto.
  - intros E; inversion E; subst; rewrite C1; auto.
Qed.

Lemma reconnect_keeps_wired (s s' : St) r :
  runState (reconnect DialContext) s = (r, s') ->
  wired (client s) -> wired (client s').
Proof.
  intros E W; apply reconnect_client in E; destruct E as (F & C).
  destruct r as [e|].
  - rewrite F by discriminate; exact W.
  - destruct (C eq_refl) as (Cn & G); unfold wired; rewrite G; cbn; auto.
Qed.

Lemma reconnect_keeps_stub (s s' : St) r :
  runState (reconnect DialContext) s = (r, s') ->
  grpcClient (client s) <> None -> grpcClient (client s') <> None.
Proof.
  intros E W; apply reconnect_client in E; destruct E as (F & C).
  destruct r as [e|].
  - rewrite F by discriminate; exact W.
  - destruct (C eq_refl) as (_ & G); rewrite G; discriminate.
Qed.

End Facts.

Section Logs.
Context {Ret : Type}.
Implicit Types (tr rt : list (Event Ret)) (res : Ret * option error).

Lemma lastCallFrom_app acc tr1 tr2 :
  lastCallFrom acc (tr1 ++ tr2) = lastCallFrom (lastCallFrom acc tr1) tr2.
Proof. apply fold_left_app. Qed.

Lemma lastCallFrom_no_call acc tr :
  count isCall tr = 0%nat -> lastCallFrom acc tr = acc.
Proof.
  revert acc; induction tr as [|ev tr IH]; intros acc; [reflexivity|].
  rewrite count_cons; destruct ev; cbn; intros H; try discriminate;
    apply IH; exact H.
Qed.

Lemma loopTrace_lastCall k n ret0 e0 tr res :
  loopTrace k n ret0 (Some e0) tr res ->
  forall ea, exists e,
    lastCallFrom (Some (ret0, Some ea)) tr = Some (fst res, e) /\
    (snd res = None <-> e = None).
Proof.
  remember (Some e0) as err0 eqn:E0; intros H; revert e0 E0.
  induction H as [ret0 err0
                 |n ret0 err0 rt e tr res Rt Lt IH
                 |n ret0 err0 rt v e tr res Rt Lt IH
                 |n ret0 err0 rt v Rt]; intros e0 E0 ea; subst;
    try (pose proof (reconnectTrace_counts _ _ _ Rt) as (R1 & _)).
  - exists (Some ea); cbn; split; [reflexivity|split; discriminate].
  - rewrite lastCallFrom_app, (lastCallFrom_no_call _ _ R1).
    exact (IH e eq_refl ea).
  - rewrite lastCallFrom_app, (lastCallFrom_no_call _ _ R1).
    exact (IH e eq_refl e).
  - rewrite lastCallFrom_app, (lastCallFrom_no_call _ _ R1).
    exists None; cbn; split; [reflexivity|split; reflexivity].
Qed.

End Logs.

(** ** Properties of the methods *)
Section Properties.
Context {World Conn Ret : Type}.
Variable DialContext : string -> Duration -> World -> (Conn + error) * World.

Local Abbreviation St := (St World Conn Ret).
Local Abbreviation Caller := (@Caller World Conn Ret).

(** X1. An [Init] or a [reconnect] that returns an error leaves the client
    as it was: neither the connection nor the stub is replaced. *)
Theorem failed_connect_keeps_client (s : St) :
  (let (err, s') := runState (Init DialContext) s in
   err <> None -> client s' = client s) /\
  (let (err, s') := runState (reconnect DialContext) s in
   err <> None -> client s' = client s).
Proof.
  split.
  - destruct (runState (Init DialContext) s) as [err s'] eqn:E.
    apply Init_client in E; tauto.
  - destruct (runState (reconnect DialContext) s) as [err s'] eqn:E.
    apply reconnect_client in E; tauto.
Qed.

(** X2. The stub and the connection stay together: on a client that is
    wired (no stub and no connection, or a stub made from the current,
    non-nil connection), [Init], [reconnect] and [recall] all end with a
    client that is wired. *)
Theorem methods_keep_wired (caller : Caller) (s : St) :
  wired (client s) ->
  wired (client (snd (runState (Init DialContext) s))) /\
  wired (client (snd (runState (reconnect DialContext) s))) /\
  wired (client (snd (runState (recall DialContext caller) s))).
Proof.
  intros W; splits.
  - destruct (runState (Init DialContext) s) as [err s'] eqn:E; cbn [snd].
    apply Init_client in E; destruct E as (F & C).
    destruct err as [e|].
    + rewrite F by discriminate; exact W.
    + destruct (C eq_refl) as (Cn & G); unfold wired; rewrite G; cbn; auto.
  - destruct (runState (reconnect DialContext) s) as [err s'] eqn:E; cbn [snd].
    eapply reconnect_keeps_wired; eauto.
  - destruct (runState (recall DialContext caller) s) as [res s'] eqn:E.
    cbn [snd]; eapply (recall_keeps DialContext wired); eauto.
    intros; eapply reconnect_keeps_wired; eauto.
Qed.

(** X3. No method writes the configuration of the client: after [Init],
    [reconnect] and [recall] the address, the timeout, [reconnTry] and
    [recallTry] are what they were. *)
Theorem methods_keep_config (caller : Caller) (s : St) :
  sameConfig (client s) (client (snd (runState (Init DialContext) s))) /\
  sameConfig (client s) (client (snd (runState (reconnect DialContext) s))) /\
  sameConfig (client s) (client (snd (runState (recall DialContext caller) s))).
Proof.
  splits.
  - destruct (runState (Init DialContext) s) as [err s'] eqn:E; cbn [snd].
    apply Init_run in E; destruct E as (? & _ & _ & _ & Cf & _); exact Cf.
  - destruct (runState (reconnect DialContext) s) as [err s'] eqn:E; cbn [snd].
    apply reconnect_run in E; destruct E as (? & _ & _ & Cf & _); exact Cf.
  - destruct (runState (recall DialContext caller) s) as [res s'] eqn:E.
    cbn [snd]; apply recall_run in E; destruct E as (? & _ & _ & _ & Cf).
    exact Cf.
Qed.

Lemma recall_last_call (caller : Caller) (s s' : St) res :
  runState (recall DialContext caller) s = (res, s') ->
  exists tr e,
    events s' = events s ++ tr /\
    (count isCall tr <= 1 + Z.to_nat (recallTry (client s)))%nat /\
    lastCall tr = Some (fst res, e) /\
    (snd res = None <-> e = None).
Proof.
  intros E; apply recall_run in E; destruct E as (tr & Ev & Rt & _ & _).
  destruct Rt as [v|v e tr res Lt].
  - exists [EvCall v None], None; splits; auto; try reflexivity.
    count_simpl; cbn; lia.
  - destruct (loopTrace_lastCall _ _ _ _ _ _ Lt e) as (e' & L & I).
    pose proof (loopTrace_counts _ _ _ _ _ _ Lt) as (C1 & C2 & _).
    pose proof (count_reconnect_split tr) as C3.
    exists (EvCall v (Some e) :: tr), e'; splits; auto; try apply I.
    count_simpl; cbn; lia.
Qed.

(** X4. Whatever happens in between, the value [recall] returns is the one
    its last invocation of the caller returned, and its error is nil
    exactly when that last invocation succeeded. *)
Theorem recall_returns_last_invocation (caller : Caller) (s : St) :
  let (res, s') := runState (recall DialContext caller) s in
  exists tr e,
    events s' = events s ++ tr /\
    lastCall tr = Some (fst res, e) /\
    (snd res = None <-> e = None).
Proof.
  destruct (runState (recall DialContext caller) s) as [res s'] eqn:E.
  apply recall_last_call in E; destruct E as (tr & e & Ev & _ & L & I).
  exists tr, e; auto.
Qed.

(** X5. On a client whose [recallTry] is zero or negative [recall] is one
    invocation of the caller: it returns what the caller returned, value
    and error, and neither reconnects nor touches the client. *)
Theorem recall_without_retries (caller : Caller) (s : St) :
  recallTry (client s) <= 0 ->
  runState (recall DialContext caller) s =
  (let (r, w) := caller (client s) (world s) in
   (r, {| client := client s; world := w;
          events := events s ++ [EvCall (fst r) (snd r)] |})).
Proof.
  intros H; unfold recall, invoke; cbn.
  destruct (caller (client s) (world s)) as [[v [e|]] w]; cbn; [|reflexivity].
  destruct (recallTry (client s)) as [|p|p]; try reflexivity.
  exfalso; apply H; reflexivity.
Qed.

End Properties.

(** ** Closures that can panic *)
Section PanicFacts.
Context {World Conn Ret : Type}.
Variable DialContext : string -> Duration -> World -> (Conn + error) * World.

Local Abbreviation St := (St World Conn Ret).
Local Abbreviation Caller := (@Caller World Conn Ret).
Local Abbreviation CallerP := (@CallerP World Conn Ret).
Local Abbreviation MP := (@MP World Conn Ret).

#[local] Existing Instance Monad_stateT.

Lemma runP_bind {A B} (c : MP A) (f : A -> MP B) (s : St) :
  runStateT (bind c f) s =
  match runStateT c s with
  | Some (a, s1) => runStateT (f a) s1
  | None => None
  end.
Proof. cbn; destruct (runStateT c s) as [[a s1]|]; reflexivity. Qed.

Lemma invokeP_run (caller : CallerP) (s : St) :
  runStateT (invokeP caller) s =
  match caller (client s) (world s) with
  | None => None
  | Some (r, w) =>
      Some (r, {| client := client s; world := w;
                  events := events s ++ [EvCall (fst r) (snd r)] |})
  end.
Proof.
  unfold invokeP; cbn.
  destruct (caller (client s) (world s)) as [[r w]|]; reflexivity.
Qed.

Lemma invoke_eq (caller : Caller) (s : St) :
  runState (invoke caller) s =
  (let (r, w) := caller (client s) (world s) in
   (r, {| client := client s; world := w;
          events := events s ++ [EvCall (fst r) (snd r)] |})).
Proof.
  unfold invoke; cbn.
  destruct (caller (client s) (world s)) as [r w]; reflexivity.
Qed.

Lemma recallLoopP_unfold n (caller : CallerP) ret0 err0 (s : St) :
  runStateT (recallLoopP DialContext (S n) caller ret0 err0) s =
  let (err, s1) := runState (reconnect DialContext) s in
  match err with
  | None =>
      match runStateT (invokeP caller) s1 with
      | None => None
      | Some (r, s2) =>
          match snd r with
          | None => Some ((fst r, None), s2)
          | Some e =>
              runStateT (recallLoopP DialContext n caller (fst r) (Some e)) s2
          end
      end
  | Some e => runStateT (recallLoopP DialContext n caller ret0 (Some e)) s1
  end.
Proof.
  change (recallLoopP DialContext (S n) caller ret0 err0)
    with (bind (lift (reconnect DialContext)) (fun err =>
            match err with
            | None =>
                bind (invokeP caller) (fun r =>
                  match snd r with
                  | None => ret (fst r, None)
                  | Some e => recallLoopP DialContext n caller (fst r) (Some e)
                  end)
            | Some e => recallLoopP DialContext n caller ret0 (Some e)
            end)).
  rewrite runP_bind; unfold lift at 1; cbn [runStateT].
  destruct (runState (reconnect DialContext) s) as [[e|] s1]; [reflexivity|].
  rewrite runP_bind.
  destruct (runStateT (invokeP caller) s1) as [[[v [e|]] s2]|]; reflexivity.
Qed.

(** On clients that satisfy [P], a property [reconnect] keeps, let the
    closure return what [caller] returns: then [recall] for closures that can
    panic does not panic, and runs as [recall] does. *)
Lemma recallLoopP_agrees (P : Client Conn -> Prop)
      (callerP : CallerP) (caller : Caller) :
  (forall c w, P c -> callerP c w = Some (caller c w)) ->
  (forall (s : St) r (s' : St),
      runState (reconnect DialContext) s = (r, s') ->
      P (client s) -> P (client s')) ->
  forall n ret0 err0 (s : St),
    P (client s) ->
    runStateT (recallLoopP DialContext n callerP ret0 err0) s =
    Some (runState (recallLoop DialContext n caller ret0 err0) s).
Proof.
  intros HC HP n; induction n as [|n IH]; intros ret0 err0 s Ps.
  - reflexivity.
  - rewrite recallLoopP_unfold, recallLoop_unfold.
    destruct (runState (reconnect DialContext) s) as [err s1] eqn:E1.
    apply HP in E1; [|exact Ps].
    destruct err as [e|]; [apply IH; exact E1|].
    rewrite invokeP_run, invoke_eq, (HC _ _ E1).
    destruct (caller (client s1) (world s1)) as [[v [e|]] w]; cbn [fst snd];
      [|reflexivity].
    apply IH; exact E1.
Qed.

Lemma recallP_agrees (P : Client Conn -> Prop)
      (callerP : CallerP) (caller : Caller) :
  (forall c w, P c -> callerP c w = Some (caller c w)) ->
  (forall (s : St) r (s' : St),
      runState (reconnect DialContext) s = (r, s') ->
      P (client s) -> P (client s')) ->
  forall s : St,
    P (client s) ->
    runStateT (recallP DialContext callerP) s =
    Some (runState (recall DialContext caller) s).
Proof.
  intros HC HP s Ps; unfold recallP, recall.
  rewrite runP_bind, invokeP_run, (HC _ _ Ps).
  change (runState (bind ?c ?f) s)
    with (let (v, s0) := runState c s in runState (f v) s0).
  rewrite invoke_eq.
  destruct (caller (client s) (world s)) as [[v [e|]] w]; cbn [fst snd];
    [|reflexivity].
  rewrite runP_bind; cbn [runStateT get MonadState_stateT].
  change (runState (bind get ?f) ?s1) with (runState (f s1) s1); cbn beta.
  cbn [client].
  apply (recallLoopP_agrees P callerP caller HC HP); exact Ps.
Qed.

Lemma recallP_panics_at_once (callerP : CallerP) (s : St) :
  callerP (client s) (world s) = None ->
  runStateT (recallP DialContext callerP) s = None.
Proof.
  intros H; unfold recallP; rewrite runP_bind, invokeP_run, H; reflexivity.
Qed.

(** What [recall] returns, the caller returned. *)
Lemma recallLoop_value (Q : Ret -> Prop) (caller : Caller) :
  (forall c w, Q (fst (fst (caller c w)))) ->
  forall n ret0 err0 (s : St),
    Q ret0 ->
    Q (fst (fst (runState (recallLoop DialContext n caller ret0 err0) s))).
Proof.
  intros HQ n; induction n as [|n IH]; intros ret0 err0 s Q0; [exact Q0|].
  rewrite recallLoop_unfold.
  destruct (runState (reconnect DialContext) s) as [[e|] s1]; [apply IH; exact Q0|].
  rewrite invoke_eq.
  pose proof (HQ (client s1) (world s1)) as Q1.
  destruct (caller (client s1) (world s1)) as [[v [e|]] w]; cbn [fst snd] in *;
    [apply IH; exact Q1|exact Q1].
Qed.

Lemma recall_value (Q : Ret -> Prop) (caller : Caller) :
  (forall c w, Q (fst (fst (caller c w)))) ->
  forall s : St, Q (fst (fst (runState (recall DialContext caller) s))).
Proof.
  intros HQ s; unfold recall.
  change (runState (bind ?c ?f) s)
    with (let (v, s0) := runState c s in runState (f v) s0).
  rewrite invoke_eq.
  pose proof (HQ (client s) (world s)) as Q1.
  destruct (caller (client s) (world s)) as [[v [e|]] w]; cbn [fst snd] in *;
    [|exact Q1].
  change (runState (bind get ?f) ?s1) with (runState (f s1) s1); cbn beta.
  apply recallLoop_value; assumption.
Qed.

End PanicFacts.

(** ** The RPC methods *)
Section RPC.
Context {World Conn ComponentStates StringResponse Status
         CreateIndexRequest : Type}.
Variable DialContext : string -> Duration -> World -> (Conn + error) * World.
Variable node : IndexNodeMethods World Conn ComponentStates StringResponse
                                 Status CreateIndexRequest.

Local Abbreviation Iface := (Iface ComponentStates StringResponse Status).
Local Abbreviation St := (St World Conn Iface).
Local Abbreviation MP := (@MP World Conn Iface).

#[local] Existing Instance Monad_stateT.

Lemma stubCall_recallP {T} (wrap : option T -> Iface) method (s : St) :
  grpcClient (client s) <> None ->
  exists p err s',
    runStateT (recallP DialContext (stubCall wrap method)) s =
    Some ((wrap p, err), s') /\
    grpcClient (client s') <> None /\
    runState (recall DialContext (stubCallTotal wrap method)) s = ((wrap p, err), s').
Proof.
  intros G.
  rewrite (recallP_agrees DialContext (fun c => grpcClient c <> None)
             (stubCall wrap method) (stubCallTotal wrap method)); auto.
  - destruct (runState (recall DialContext (stubCallTotal wrap method)) s)
      as [[v err] s'] eqn:E.
    assert (Q : exists p, v = wrap p).
    { change v with (fst (fst ((v, err), s'))); rewrite <- E.
      apply (recall_value DialContext (fun v => exists p, v = wrap p)).
      intros c w; unfold stubCallTotal, stubCall.
      destruct (grpcClient c); [|exists None; reflexivity].
      destruct (method _ _) as [[p e] w']; exists p; reflexivity. }
    destruct Q as (p & ->); exists p, err, s'; splits; auto.
    eapply (recall_keeps DialContext (fun c => grpcClient c <> None)); eauto.
    intros; eapply reconnect_keeps_stub; eauto.
  - intros c w Gc; unfold stubCallTotal.
    destruct (stubCall wrap method c w) eqn:E; [reflexivity|].
    unfold stubCall in E; destruct (grpcClient c); [|congruence].
    destruct (method _ _) as [[p e] w']; discriminate.
  - intros; eapply reconnect_keeps_stub; eauto.
Qed.

Lemma stubCall_nil {T} (wrap : option T -> Iface) method (s : St) :
  grpcClient (client s) = None ->
  runStateT (recallP DialContext (stubCall wrap method)) s = None.
Proof.
  intros G; apply recallP_panics_at_once; unfold stubCall; rewrite G.
  reflexivity.
Qed.

(** X6. An RPC method called on a client without a stub, as a client is
    before [Init], panics at once: the closure calls a method of the nil
    [c.grpcClient] before anything else is done. *)
Theorem rpc_without_stub_panics (req : CreateIndexRequest) (s : St) :
  grpcClient (client s) = None ->
  panics (GetComponentStates DialContext node) s /\
  panics (GetTimeTickChannel DialContext node) s /\
  panics (GetStatisticsChannel DialContext node) s /\
  panics (CreateIndex DialContext node req) s.
Proof.
  intros G; unfold panics, GetComponentStates, GetTimeTickChannel,
    GetStatisticsChannel, CreateIndex.
  rewrite !runP_bind, !stubCall_nil by exact G; auto.
Qed.

(** X7. An RPC method called on a client with a stub does not panic: the
    stub is still there each time the closure runs, since [reconnect] never
    removes it, and the type assertion holds, since the value [recall] hands
    back is one the closure returned. The client still has a stub
    afterwards, the RPC was invoked at most once more than [recallTry], the
    pointer returned is the one of the last invocation, and the error is nil
    exactly when that invocation succeeded. *)
Theorem rpc_with_stub_returns (req : CreateIndexRequest) (s : St) :
  grpcClient (client s) <> None ->
  returns (GetComponentStates DialContext node) s
          (answered IfaceComponentStates s) /\
  returns (GetTimeTickChannel DialContext node) s
          (answered IfaceStringResponse s) /\
  returns (GetStatisticsChannel DialContext node) s
          (answered IfaceStringResponse s) /\
  returns (CreateIndex DialContext node req) s
          (answered IfaceStatus s).
Proof.
  intros G; unfold returns, answered, GetComponentStates, GetTimeTickChannel,
    GetStatisticsChannel, CreateIndex; splits; rewrite runP_bind;
    match goal with
    | |- context [recallP _ (stubCall ?wrap ?method)] =>
        destruct (stubCall_recallP wrap method s G)
          as (p & err & s' & -> & G' & E)
    end; apply recall_last_call in E; cbn; eauto.
Qed.

(** X8. When the RPC succeeds at its first invocation, the method returns
    the pointer the stub returned with a nil error; it does not dial, and
    the client is as before. *)
Theorem rpc_first_try (req : CreateIndexRequest) (s : St) stub :
  grpcClient (client s) = Some stub ->
  (forall p w,
      stubGetComponentStates node stub (world s) = ((p, None), w) ->
      runStateT (GetComponentStates DialContext node) s =
      Some ((p, None),
            {| client := client s; world := w;
               events := events s ++ [EvCall (IfaceComponentStates p) None] |})) /\
  (forall p w,
      stubGetTimeTickChannel node stub (world s) = ((p, None), w) ->
      runStateT (GetTimeTickChannel DialContext node) s =
      Some ((p, None),
            {| client := client s; world := w;
               events := events s ++ [EvCall (IfaceStringResponse p) None] |})) /\
  (forall p w,
      stubGetStatisticsChannel node stub (world s) = ((p, None), w) ->
      runStateT (GetStatisticsChannel DialContext node) s =
      Some ((p, None),
            {| client := client s; world := w;
               events := events s ++ [EvCall (IfaceStringResponse p) None] |})) /\
  (forall p w,
      stubCreateIndex node stub req (world s) = ((p, None), w) ->
      runStateT (CreateIndex DialContext node req) s =
      Some ((p, None),
            {| client := client s; world := w;
               events := events s ++ [EvCall (IfaceStatus p) None] |})).
Proof.
  intros G; splits; intros p w H;
    unfold GetComponentStates, GetTimeTickChannel, GetStatisticsChannel,
      CreateIndex, recallP;
    rewrite !runP_bind, invokeP_run; unfold stubCall; rewrite G, H;
    reflexivity.
Qed.

(** X9. A client straight from [NewClient] can serve RPCs exactly when its
    [Init] returned nil: after an [Init] that succeeded no RPC method
    panics, and after one that failed every RPC method panics, the stub
    being still nil. *)
Theorem rpc_after_Init (req : CreateIndexRequest) addr t c (w : World) :
  NewClient addr t = (Some c, None) ->
  let (err, s1) :=
    runState (Init DialContext) {| client := c; world := w; events := [] |} in
  match err with
  | None =>
      returns (GetComponentStates DialContext node) s1 (fun _ _ => True) /\
      returns (GetTimeTickChannel DialContext node) s1 (fun _ _ => True) /\
      returns (GetStatisticsChannel DialContext node) s1 (fun _ _ => True) /\
      returns (CreateIndex DialContext node req) s1 (fun _ _ => True)
  | Some _ =>
      panics (GetComponentStates DialContext node) s1 /\
      panics (GetTimeTickChannel DialContext node) s1 /\
      panics (GetStatisticsChannel DialContext node) s1 /\
      panics (CreateIndex DialContext node req) s1
  end.
Proof.
  intros N.
  assert (G0 : grpcClient c = None).
  { unfold NewClient in N; destruct (String.eqb addr EmptyString);
      inversion N; reflexivity. }
  destruct (runState (Init DialContext) _) as [err s1] eqn:E.
  apply Init_client in E; destruct E as (F & C); cbn [client] in *.
  destruct err as [e|].
  - assert (G : grpcClient (client s1) = None)
      by (rewrite F by discriminate; exact G0).
    unfold panics, GetComponentStates, GetTimeTickChannel,
      GetStatisticsChannel, CreateIndex.
    rewrite !runP_bind, !stubCall_nil by exact G; auto.
  - assert (G : grpcClient (client s1) <> None)
      by (destruct (C eq_refl) as (_ & G); rewrite G; discriminate).
    unfold returns, GetComponentStates, GetTimeTickChannel,
      GetStatisticsChannel, CreateIndex; splits; rewrite runP_bind;
      match goal with
      | |- context [recallP _ (stubCall ?wrap ?method)] =>
          destruct (stubCall_recallP wrap method s1 G)
            as (p & err & s' & -> & _ & _)
      end; cbn; eauto.
Qed.

(** *** The exported methods on a client that is not connected *)

Lemma callMethod_unconnected (m : Method CreateIndexRequest) (s s' : St) e :
  conn (client s) = None -> grpcClient (client s) = None ->
  runStateT (callMethod DialContext node m) s = Some (e, s') ->
  (conn (client s') = None /\ grpcClient (client s') = None) \/
  (m = MInit /\ e = None).
Proof.
  intros C G; destruct m; unfold callMethod;
    try (rewrite runP_bind;
         unfold GetComponentStates, GetTimeTickChannel, GetStatisticsChannel,
           CreateIndex;
         rewrite runP_bind, stubCall_nil by exact G; discriminate);
    unfold lift; cbn [runStateT].
  - destruct (runState (Init DialContext) s) as [e1 s1] eqn:E1.
    intros E; inversion E; subst.
    apply Init_client in E1; destruct E1 as (F & _).
    destruct e as [err|]; [left|right; auto].
    rewrite F by discriminate; auto.
  - intros E; inversion E; subst; auto.
  - intros E; inversion E; subst; auto.
  - intros E; inversion E; subst; auto.
Qed.

Lemma callAll_connects_by_Init (ms : list (Method CreateIndexRequest)) :
  forall (s s' : St) es,
    conn (client s) = None -> grpcClient (client s) = None ->
    runStateT (callAll DialContext node ms) s = Some (es, s') ->
    conn (client s') <> None ->
    In (MInit, None) (combine ms es).
Proof.
  induction ms as [|m ms IH]; intros s s' es C G.
  - cbn; intros E; inversion E; subst; congruence.
  - change (callAll DialContext node (m :: ms))
      with (bind (callMethod DialContext node m) (fun e =>
              bind (callAll DialContext node ms) (fun es => ret (e :: es)))).
    rewrite runP_bind.
    destruct (runStateT (callMethod DialContext node m) s) as [[e s1]|] eqn:E1;
      [|discriminate].
    rewrite runP_bind.
    destruct (runStateT (callAll DialContext node ms) s1) as [[es1 s2]|] eqn:E2;
      [|discriminate].
    cbn; intros E N; inversion E; subst.
    destruct (callMethod_unconnected _ _ _ _ C G E1) as [(C1 & G1)|(-> & ->)].
    + right; eapply IH; eauto.
    + left; reflexivity.
Qed.

(** C10. [NewClient] returns an error exactly when the address is empty,
    and then no client. For a non-empty address it returns, with a nil
    error, a client with [recallTry] 3, [reconnTry] 10, the given timeout
    and address, and neither a connection nor a stub: it does not dial. The
    connection is established by a later [Init], and only by it: an [Init]
    that returns nil has stored a connection, and whatever exported methods
    are called on the client one after the other, if the client has a
    connection at the end then one of the calls was an [Init] that returned
    nil. (The RPC methods, the only way to [recall] and [reconnect], panic
    on a client that has no stub before they dial.) *)
Theorem NewClient_spec (addr : string) (t : Duration) :
  (snd (@NewClient Conn addr t) <> None <-> addr = EmptyString) /\
  (addr = EmptyString -> fst (@NewClient Conn addr t) = None) /\
  (addr <> EmptyString ->
   exists c : Client Conn,
     NewClient addr t = (Some c, None) /\
     recallTry c = 3 /\ reconnTry c = 10 /\ timeout c = t /\
     address c = addr /\ conn c = None /\ grpcClient c = None /\
     (forall (Ret : Type) (w : World) (tr : list (Event Ret)),
         let (err, s') :=
           runState (Init DialContext)
                    {| client := c; world := w; events := tr |} in
         err = None -> conn (client s') <> None) /\
     (forall (ms : list (Method CreateIndexRequest)) (w : World)
             (tr : list (Event Iface)) es (s' : St),
         runStateT (callAll DialContext node ms)
                   {| client := c; world := w; events := tr |} = Some (es, s') ->
         conn (client s') <> None ->
         In (MInit, None) (combine ms es))).
Proof.
  unfold NewClient.
  destruct (String.eqb_spec addr EmptyString) as [->|Ne]; cbn [fst snd]; splits;
    try congruence; try (split; congruence).
  intros _; eexists; splits; try reflexivity.
  - intros Ret w tr.
    destruct (runState _ _) as [err s'] eqn:E.
    apply Init_run in E; destruct E as (errs & _ & _ & _ & _ & Cn).
    intros H; apply Cn; exact H.
  - intros ms w tr es s' E N.
    eapply callAll_connects_by_Init; [| |exact E|exact N]; reflexivity.
Qed.

End RPC.

(** ** Runs on the concrete node *)
Import ClientExamples RPCExamples.

#[local] Existing Instance Monad_stateT.

(** Before [Init] an RPC panics; after an [Init] that had to dial three
    times it is answered. *)
Example GetComponentStates_before_Init :
  runStateT (GetComponentStates dialUp exampleNode) stNew = None.
Proof. reflexivity. Qed.

Example GetComponentStates_after_Init :
  option_map fst
    (runStateT (GetComponentStates dialUp exampleNode)
               (snd (runState (Init (dialAfter 2)) stNew))) =
  Some (Some "Healthy"%string, None).
Proof. vm_compute; reflexivity. Qed.

(** An RPC that keeps failing is invoked four times, with a reconnect before
    each retry, and its nil pointer and error come back. *)
Example GetStatisticsChannel_fails :
  match runStateT (GetStatisticsChannel dialUp exampleNode) stConnected with
  | Some (r, s') =>
      r = (None, Some "rpc failed"%string) /\
      count isCall (events s') = 4%nat /\
      count isReconnect (events s') = 3%nat
  | None => False
  end.
Proof. vm_compute; auto. Qed.

(** A program that asks for the state of the node before and after [Init]
    panics at its first call; one that starts with [Init] runs. *)
Example callAll_before_Init :
  runStateT (callAll (dialAfter 2) exampleNode
                     [MGetComponentStates; MInit; MGetComponentStates])
            stNew = None.
Proof. reflexivity. Qed.

Example callAll_after_Init :
  option_map (fun r => (fst r, conn (client (snd r))))
    (runStateT (callAll (dialAfter 2) exampleNode
                        [MStart; MInit; MGetComponentStates;
                         MCreateIndex "index-1"%string])
               stNew) =
  Some ([None; None; None; None], Some tt).
Proof. vm_compute; reflexivity. Qed.

Lemma NewClient_spec_witness :
  "localhost:21121"%string <> EmptyString /\
  exists c : Client unit,
    NewClient "localhost:21121" (3000 * Millisecond) = (Some c, None) /\
    recallTry c = 3 /\ reconnTry c = 10 /\ timeout c = 3000 * Millisecond /\
    address c = "localhost:21121"%string /\ conn c = None /\
    grpcClient c = None /\
    (forall (Ret : Type) (w : nat) (tr : list (Event Ret)),
        let (err, s') :=
          runState (Init (dialAfter 2))
                   {| client := c; world := w; events := tr |} in
        err = None -> conn (client s') <> None) /\
    (forall (ms : list (Method string)) (w : nat)
            (tr : list (Event (Iface string string string))) es
            (s' : St nat unit (Iface string string string)),
        runStateT (callAll (dialAfter 2) exampleNode ms)
                  {| client := c; world := w; events := tr |} = Some (es, s') ->
        conn (client s') <> None ->
        In (MInit, None) (combine ms es)).
Proof.
  split; [discriminate|].
  apply (proj2 (proj2 (NewClient_spec (dialAfter 2) exampleNode
                                      "localhost:21121"
                                      (3000 * Millisecond)))).
  discriminate.
Defined.

Lemma methods_keep_wired_witness :
  wired (client st0) /\
  (wired (client (snd (runState (Init (dialAfter 2)) st0))) /\
   wired (client (snd (runState (reconnect (dialAfter 2)) st0))) /\
   wired (client (snd (runState (recall (dialAfter 2) rpcNeedsStub) st0)))).
Proof.
  split; [reflexivity|].
  apply (methods_keep_wired (dialAfter 2) rpcNeedsStub st0); reflexivity.
Defined.

Lemma recall_without_retries_witness :
  recallTry (client stNoRetry) <= 0 /\
  runState (recall dialUp rpcDown) stNoRetry =
  (let (r, w) := rpcDown (client stNoRetry) (world stNoRetry) in
   (r, {| client := client stNoRetry; world := w;
          events := events stNoRetry ++ [EvCall (fst r) (snd r)] |})).
Proof.
  split; [cbn; lia|].
  apply (recall_without_retries dialUp rpcDown stNoRetry); cbn; lia.
Defined.

Lemma rpc_without_stub_panics_witness :
  grpcClient (client stNew) = None /\
  (panics (GetComponentStates dialUp exampleNode) stNew /\
   panics (GetTimeTickChannel dialUp exampleNode) stNew /\
   panics (GetStatisticsChannel dialUp exampleNode) stNew /\
   panics (CreateIndex dialUp exampleNode "index-1"%string) stNew).
Proof.
  split; [reflexivity|].
  apply (rpc_without_stub_panics dialUp exampleNode "index-1"%string stNew).
  reflexivity.
Defined.

Lemma rpc_with_stub_returns_witness :
  grpcClient (client stConnected) <> None /\
  (returns (GetComponentStates dialUp exampleNode) stConnected
           (answered IfaceComponentStates stConnected) /\
   returns (GetTimeTickChannel dialUp exampleNode) stConnected
           (answered IfaceStringResponse stConnected) /\
   returns (GetStatisticsChannel dialUp exampleNode) stConnected
           (answered IfaceStringResponse stConnected) /\
   returns (CreateIndex dialUp exampleNode "index-1"%string) stConnected
           (answered IfaceStatus stConnected)).
Proof.
  split; [discriminate|].
  apply (rpc_with_stub_returns dialUp exampleNode "index-1"%string stConnected).
  discriminate.
Defined.

Lemma rpc_first_try_witness :
  grpcClient (client stConnected) = Some (NewIndexNodeClient (Some tt)) /\
  stubGetComponentStates exampleNode (NewIndexNodeClient (Some tt))
                         (world stConnected) =
  ((Some "Healthy"%string, None), 0%nat) /\
  runStateT (GetComponentStates dialUp exampleNode) stConnected =
  Some ((Some "Healthy"%string, None),
        {| client := client stConnected; world := 0%nat;
           events := events stConnected
                     ++ [EvCall (IfaceComponentStates (Some "Healthy"%string))
                                None] |}).
Proof.
  split; [reflexivity|split; [reflexivity|]].
  apply (proj1 (rpc_first_try dialUp exampleNode "index-1"%string stConnected
                              (NewIndexNodeClient (Some tt)) eq_refl)).
  reflexivity.
Defined.

Lemma rpc_after_Init_witness :
  NewClient "localhost:21121" (3000 * Millisecond) = (Some client0, None) /\
  let (err, s1) :=
    runState (Init (dialAfter 2))
             {| client := client0; world := 0%nat; events := [] |} in
  match err with
  | None =>
      returns (GetComponentStates (dialAfter 2) exampleNode) s1
              (fun _ _ => True) /\
      returns (GetTimeTickChannel (dialAfter 2) exampleNode) s1
              (fun _ _ => True) /\
      returns (GetStatisticsChannel (dialAfter 2) exampleNode) s1
              (fun _ _ => True) /\
      returns (CreateIndex (dialAfter 2) exampleNode "index-1"%string) s1
              (fun _ _ => True)
  | Some _ =>
      panics (GetComponentStates (dialAfter 2) exampleNode) s1 /\
      panics (GetTimeTickChannel (dialAfter 2) exampleNode) s1 /\
      panics (GetStatisticsChannel (dialAfter 2) exampleNode) s1 /\
      panics (CreateIndex (dialAfter 2) exampleNode "index-1"%string) s1
  end.
Proof.
  split; [reflexivity|].
  apply (rpc_after_Init (dialAfter 2) exampleNode "index-1"%string
                        "localhost:21121"%string (3000 * Millisecond)
                        client0 0%nat).
  reflexivity.
Defined.

End ClientMore.
